(** * Version parsing and ordering of [src/util.ts]

    A shallow embedding of the version helpers of the extension:
    [parseVersion], [compareVersion], [versionToString], [compareVersions]
    and the boolean wrappers [versionGreater] ... [versionLessOrEquals];
    then of more of the file: [escapeStringForRegex], [replaceAll],
    [removeAllPatterns], [normalizePath], [cmakeify],
    [parseCompileDefinition], [product], [lexicographicalCompare] and
    [memoize]; and of the kit button of [src/status.ts].

    Conventions.
    - A JavaScript string is a list of code units, [list ascii]; the code
      units are the 8-bit characters, so of the white space and line
      terminators of ECMAScript those below 256 exist here.  String literals
      are read through [lit].
    - A [number] is a [Z].  It stands for a JavaScript number that is an
      integer or an infinity: an integer-valued double is its value, and
      [Infinity] is [2 ^ 1024], the place IEEE rounding gives it (above
      every finite double, reached by rounding from [2 ^ 1024 - 2 ^ 970]
      on).  [round_double] is the rounding of an integer to a double;
      [parseInt] rounds what it reads, and number-to-string conversion
      prints the shortest digits that read back as the double, as
      ECMAScript has them.  Comparisons are those of [Z]; a difference is
      the exact one, whose sign is that of the double it rounds to when the
      operands are finite.  [NaN] has no place in a [Z]: the [NaN] result
      of [parseInt] is [None].
    - The language built-ins the code calls ([RegExp.prototype.exec],
      [parseInt], template literals, [??]) are modelled after their
      ECMAScript definitions in the modules [Js] and [RegExp]. *)

From Stdlib Require Import ZArith String Ascii List Bool Lia.
Import ListNotations.

Local Open Scope Z_scope.

(** ** JavaScript values *)

Module Js.

Abbreviation jsstring := (list ascii).

Definition lit (s : string) : jsstring := list_ascii_of_string s.

Abbreviation number := Z.

(** [x ?? d]: the default is taken only for [undefined]. *)
Definition nullish {A : Type} (x : option A) (d : A) : A :=
  match x with
  | Some v => v
  | None => d
  end.

(** Array destructuring and indexing: a hole or an index past the end
    reads [undefined]. *)
Definition at_index {A : Type} (arr : list (option A)) (i : nat) : option A :=
  match nth_error arr i with
  | Some x => x
  | None => None
  end.

Definition code (c : ascii) : Z := Z.of_N (N_of_ascii c).

Definition is_digit (c : ascii) : bool :=
  (48 <=? code c) && (code c <=? 57).

Definition digit_value (c : ascii) : Z := code c - 48.

(** Value of a digit in radix 16, when it is one. *)
Definition hex_value (c : ascii) : option Z :=
  let n := code c in
  if (48 <=? n) && (n <=? 57) then Some (n - 48)
  else if (65 <=? n) && (n <=? 70) then Some (n - 55)
  else if (97 <=? n) && (n <=? 102) then Some (n - 87)
  else None.

Definition radix_value (radix : Z) (c : ascii) : option Z :=
  if radix =? 16 then hex_value c
  else if is_digit c then Some (digit_value c) else None.

(** White space and line terminators skipped by [parseInt]
    (TAB, LF, VT, FF, CR, SP, NBSP). *)
Definition is_white_space (c : ascii) : bool :=
  let n := code c in
  ((9 <=? n) && (n <=? 13)) || (n =? 32) || (n =? 160).

Fixpoint trim_start (s : jsstring) : jsstring :=
  match s with
  | c :: t => if is_white_space c then trim_start t else s
  | [] => []
  end.

(** The longest prefix of radix digits, accumulated left to right; [None]
    when the prefix is empty. *)
Fixpoint radix_prefix (radix : Z) (acc : option Z) (s : jsstring) : option Z :=
  match s with
  | c :: t =>
      match radix_value radix c with
      | Some d => radix_prefix radix (Some (nullish acc 0 * radix + d)) t
      | None => acc
      end
  | [] => acc
  end.

(** Positive infinity. *)
Definition Infinity : number := 2 ^ 1024.

(** The Number value for a non-negative integer [x]: [x] itself below
    [2 ^ 53]; otherwise [x] rounded to 53 significant bits, to the nearest
    such value and to the even significand on a tie, and [Infinity] when
    the rounded value reaches [2 ^ 1024]. *)
Definition round_double (x : Z) : number :=
  if x <? 2 ^ 53 then x
  else
    let e := Z.log2 x - 52 in
    let q := x / 2 ^ e in
    let r := x mod 2 ^ e in
    let half := 2 ^ (e - 1) in
    let q' := if (half <? r) || ((r =? half) && Z.odd q) then q + 1 else q in
    Z.min (q' * 2 ^ e) Infinity.

(** [parseInt(string)] with no radix argument: leading white space is
    dropped, then an optional sign, then an optional [0x]/[0X] prefix that
    selects radix 16; the digits that follow give the mathematical value,
    and the result is the Number value for it, with the sign.  No digit at
    all is [NaN], here [None].  The value is rounded as it stands, which is
    what V8 does; ECMAScript also allows an implementation to read the
    digits after the twentieth as zeros. *)
Definition parseInt (str : jsstring) : option number :=
  let s := trim_start str in
  let '(sign, s) :=
    match s with
    | c :: t =>
        if Ascii.eqb c "-" then (-1, t)
        else if Ascii.eqb c "+" then (1, t)
        else (1, s)
    | [] => (1, s)
    end in
  let '(radix, s) :=
    match s with
    | c0 :: c1 :: t =>
        if Ascii.eqb c0 "0" && (Ascii.eqb c1 "x" || Ascii.eqb c1 "X")
        then (16, t) else (10, s)
    | _ => (10, s)
    end in
  match radix_prefix radix None s with
  | Some n => Some (sign * round_double n)
  | None => None
  end.

Definition digit_char (d : Z) : ascii := ascii_of_N (Z.to_N (48 + d)).

(** Decimal digits of a non-negative integer, most significant first. *)
Fixpoint decimal (fuel : nat) (n : Z) (acc : jsstring) : jsstring :=
  match fuel with
  | O => acc
  | S fuel' =>
      let acc' := digit_char (n mod 10) :: acc in
      if n <? 10 then acc' else decimal fuel' (n / 10) acc'
  end.

Definition digits_of (x : Z) : jsstring :=
  decimal (S (Z.to_nat (Z.log2 x))) x [].

Fixpoint drop_zeros (rev_digits : jsstring) : jsstring :=
  match rev_digits with
  | c :: t => if Ascii.eqb c "0" then drop_zeros t else rev_digits
  | [] => []
  end.

(** The digits up to the last one that is not zero. *)
Definition significant (ds : jsstring) : jsstring :=
  rev (drop_zeros (rev ds)).

(** The integer whose digits [Number::toString] prints for the double
    [x]: the one with the fewest significant digits among the integers that
    round to [x].  With [fuel] digits of [x] still to fix, the two integers
    around [x] that end in [fuel - 1] zeros are tried: the nearer one that
    rounds to [x] is taken, the one with the even last digit when both are
    as near; when neither rounds to [x] one more digit is fixed. *)
Fixpoint shortest_from (fuel : nat) (x : Z) : Z :=
  match fuel with
  | O => x
  | S fuel' =>
      let p := 10 ^ Z.of_nat fuel' in
      let lo := x / p * p in
      let hi := lo + p in
      match round_double lo =? x, round_double hi =? x with
      | true, true =>
          if x - lo <? hi - x then lo
          else if hi - x <? x - lo then hi
          else if Z.even (x / p) then lo else hi
      | true, false => lo
      | false, true => hi
      | false, false => shortest_from fuel' x
      end
  end.

Definition shortest (x : Z) : Z :=
  shortest_from (length (digits_of x)) x.

(** [Number::toString] in radix 10 on a non-negative double [x]:
    [Infinity] prints as its name.  Otherwise, with [n] the number of
    digits of the shortest integer that reads back as [x]: all its digits
    when [n <= 21]; otherwise exponent notation, the significant digits
    with a point after the first one, then [e+] and [n - 1]. *)
Definition unsigned_toString (x : Z) : jsstring :=
  if Infinity <=? x then lit "Infinity"
  else
    let ds := digits_of (shortest x) in
    let n := length ds in
    if (n <=? 21)%nat then ds
    else
      let e := digits_of (Z.of_nat n - 1) in
      match significant ds with
      | d :: [] => d :: lit "e+" ++ e
      | d :: more => d :: "."%char :: more ++ lit "e+" ++ e
      | [] => ds
      end.

(** Number-to-string conversion, as a template literal or [String(n)]
    performs it. *)
Definition Number_toString (n : number) : jsstring :=
  if n <? 0 then "-"%char :: unsigned_toString (- n)
  else unsigned_toString n.

(** Errors that can be thrown. *)
Inductive Error : Type :=
| InvalidVersionString (message : jsstring).

(** Outcome of a call: a value, a thrown error, or [NotAnInteger] when a
    [NaN] would have to be stored where the model holds integers. *)
Inductive completion (A : Type) : Type :=
| Normal (a : A)
| Throw (e : Error)
| NotAnInteger.
Arguments Normal {A} a.
Arguments Throw {A} e.
Arguments NotAnInteger {A}.

Definition bind {A B : Type} (m : completion A) (f : A -> completion B)
  : completion B :=
  match m with
  | Normal a => f a
  | Throw e => Throw e
  | NotAnInteger => NotAnInteger
  end.

Definition to_integer (x : option number) : completion number :=
  match x with
  | Some n => Normal n
  | None => NotAnInteger
  end.

End Js.

Import Js.

Notation "x <- m ;; k" := (bind m (fun x => k))
  (at level 61, m at next level, right associativity).

(** ** Regular expressions

    A backtracking matcher in the continuation style of the ECMAScript
    specification: a matcher takes a state and a continuation, and the
    continuation is what the rest of the pattern does with the state. *)

Module RegExp.

Inductive Regex : Type :=
| CharSet (p : ascii -> bool)
| Seq (r1 r2 : Regex)
| Group (i : nat) (r : Regex)
| Repeat (min : nat) (r : Regex).

(** The input still to be read, and the captures so far (group [i] at
    index [i]; index 0 is filled by [exec]). *)
Record MatchState : Type := mkState {
  rest : jsstring;
  captures : list (option jsstring)
}.

Definition MatchResult := option MatchState.
Definition Continuation := MatchState -> MatchResult.
Definition Matcher := MatchState -> Continuation -> MatchResult.

Fixpoint set_capture (i : nat) (v : jsstring) (caps : list (option jsstring))
  : list (option jsstring) :=
  match i, caps with
  | O, _ :: t => Some v :: t
  | S i', c :: t => c :: set_capture i' v t
  | _, [] => []
  end.

(** What was read between state [x] and the later state [y]. *)
Definition consumed (x y : MatchState) : jsstring :=
  firstn (length (rest x) - length (rest y)) (rest x).

Fixpoint clear_capture (i : nat) (caps : list (option jsstring))
  : list (option jsstring) :=
  match i, caps with
  | O, _ :: t => None :: t
  | S i', c :: t => c :: clear_capture i' t
  | _, [] => []
  end.

(** An iteration of a repeated pattern starts with the groups inside the
    pattern undefined. *)
Definition enter (gs : list nat) (x : MatchState) : MatchState :=
  mkState (rest x) (fold_right clear_capture (captures x) gs).

(** Greedy iteration with no lower bound.  An iteration that reads
    nothing is rejected, so the length of the input bounds the number of
    iterations. *)
Fixpoint RepeatStar (m : Matcher) (gs : list nat) (fuel : nat)
  (x : MatchState) (c : Continuation) : MatchResult :=
  match fuel with
  | O => c x
  | S fuel' =>
      let d := fun y =>
        if Nat.eqb (length (rest y)) (length (rest x)) then None
        else RepeatStar m gs fuel' y c in
      match m (enter gs x) d with
      | Some z => Some z
      | None => c x
      end
  end.

Fixpoint RepeatMatcher (m : Matcher) (gs : list nat) (min : nat)
  (x : MatchState) (c : Continuation) : MatchResult :=
  match min with
  | O => RepeatStar m gs (length (rest x)) x c
  | S min' => m (enter gs x) (fun y => RepeatMatcher m gs min' y c)
  end.

(** The groups of a pattern, by number. *)
Fixpoint groups (r : Regex) : list nat :=
  match r with
  | CharSet _ => []
  | Seq r1 r2 => groups r1 ++ groups r2
  | Group i r1 => i :: groups r1
  | Repeat _ r1 => groups r1
  end.

Fixpoint compile (r : Regex) : Matcher :=
  match r with
  | CharSet p => fun x c =>
      match rest x with
      | ch :: t => if p ch then c (mkState t (captures x)) else None
      | [] => None
      end
  | Seq r1 r2 => fun x c =>
      compile r1 x (fun y => compile r2 y c)
  | Group i r1 => fun x c =>
      compile r1 x (fun y =>
        c (mkState (rest y) (set_capture i (consumed x y) (captures y))))
  | Repeat min r1 => RepeatMatcher (compile r1) (groups r1) min
  end.

Definition group_count (r : Regex) : nat := length (groups r).

(** One attempt at the current position: the array of the whole match
    and the groups. *)
Definition match_here (r : Regex) (s : jsstring)
  : option (list (option jsstring)) :=
  let x := mkState s (repeat None (S (group_count r))) in
  match compile r x (fun y => Some y) with
  | Some y => Some (set_capture 0 (consumed x y) (captures y))
  | None => None
  end.

(** [exec] without the global or sticky flag: the first position, from
    the left, at which the pattern matches; [None] is [null]. *)
Fixpoint exec (r : Regex) (s : jsstring) : option (list (option jsstring)) :=
  match match_here r s with
  | Some arr => Some arr
  | None =>
      match s with
      | _ :: t => exec r t
      | [] => None
      end
  end.

(** Character classes. *)
Definition digit : Regex := CharSet is_digit.

Definition char (a : ascii) : Regex := CharSet (Ascii.eqb a).

Definition is_line_terminator (c : ascii) : bool :=
  (code c =? 10) || (code c =? 13).

Definition any : Regex := CharSet (fun c => negb (is_line_terminator c)).

Definition plus (r : Regex) : Regex := Repeat 1 r.
Definition star (r : Regex) : Regex := Repeat 0 r.

End RegExp.

Import RegExp.

(** ** The functions of [util.ts] *)

Record Version : Type := mkVersion {
  major : number;
  minor : number;
  patch : number
}.

Inductive Ordering : Type :=
| Greater
| Equivalent
| Less.

(** The argument type [Version | string]. *)
Inductive VersionOrString : Type :=
| OfVersion (v : Version)
| OfString (s : jsstring).

(** [localize(key, message, arg)] with no translation bundle loaded: the
    placeholder [{0}] of the default message is replaced by the argument. *)
Fixpoint format (message : jsstring) (arg : jsstring) : jsstring :=
  match message with
  | "{"%char :: "0"%char :: "}"%char :: t => arg ++ format t arg
  | c :: t => c :: format t arg
  | [] => []
  end.

Definition localize (key message : string) (arg : jsstring) : jsstring :=
  format (lit message) arg.

(** The pattern of [parseVersion]: three groups of one or more digits
    separated by literal dots, then a fourth group that takes any characters
    up to a line terminator. *)
Definition version_re : Regex :=
  Seq (Group 1 (plus digit))
 (Seq (char ".")
 (Seq (Group 2 (plus digit))
 (Seq (char ".")
 (Seq (Group 3 (plus digit))
      (Group 4 (star any)))))).

Definition parseVersion (str : jsstring) : completion Version :=
  let mat := exec version_re str in
  match mat with
  | None =>
      Throw (InvalidVersionString
               (localize "invalid.version.string" "Invalid version string {0}" str))
  | Some mat =>
      let major := at_index mat 1 in
      let minor := at_index mat 2 in
      let patch := at_index mat 3 in
      major <- to_integer (parseInt (nullish major (lit "0"))) ;;
      minor <- to_integer (parseInt (nullish minor (lit "0"))) ;;
      patch <- to_integer (parseInt (nullish patch (lit "0"))) ;;
      Normal {| major := major; minor := minor; patch := patch |}
  end.


Definition versionToString (ver : Version) : jsstring :=
  Number_toString (major ver) ++ lit "." ++
  Number_toString (minor ver) ++ lit "." ++
  Number_toString (patch ver).

(** [if (typeof a === 'string') a = parseVersion(a)] *)
Definition toVersion (a : VersionOrString) : completion Version :=
  match a with
  | OfString s => parseVersion s
  | OfVersion v => Normal v
  end.

Definition compareVersions (a b : VersionOrString) : completion Ordering :=
  a <- toVersion a ;;
  b <- toVersion b ;;
  Normal
    (if major a >? major b then Greater
     else if major a <? major b then Less
     else if minor a >? minor b then Greater
     else if minor a <? minor b then Less
     else if patch a >? patch b then Greater
     else if patch a <? patch b then Less
     else Equivalent).

Definition Ordering_eqb (x y : Ordering) : bool :=
  match x, y with
  | Greater, Greater | Equivalent, Equivalent | Less, Less => true
  | _, _ => false
  end.

Definition versionGreater (lhs rhs : VersionOrString) : completion bool :=
  ordering <- compareVersions lhs rhs ;;
  Normal (Ordering_eqb ordering Greater).

Definition versionGreaterOrEquals (lhs rhs : VersionOrString) : completion bool :=
  ordering <- compareVersions lhs rhs ;;
  Normal (Ordering_eqb Greater ordering || Ordering_eqb Equivalent ordering).

Definition versionEquals (lhs rhs : VersionOrString) : completion bool :=
  ordering <- compareVersions lhs rhs ;;
  Normal (Ordering_eqb ordering Equivalent).

Definition versionLess (lhs rhs : VersionOrString) : completion bool :=
  ordering <- compareVersions lhs rhs ;;
  Normal (Ordering_eqb ordering Less).

Definition versionLessOrEquals (lhs rhs : VersionOrString) : completion bool :=
  ordering <- compareVersions lhs rhs ;;
  Normal (Ordering_eqb Less ordering || Ordering_eqb Equivalent ordering).

(** ** Specification vocabulary *)

(** A non-empty run of decimal digits. *)
Definition digits (a : jsstring) : Prop :=
  a <> [] /\ forallb is_digit a = true.

Definition step (acc : Z) (c : ascii) : Z := acc * 10 + digit_value c.

(** The value of a run of digits read in base 10, most significant first. *)
Definition base10 (a : jsstring) : Z := fold_left step a 0.

(** [s] holds digits-dot-digits-dot-digits between [pre] and [post]. *)
Definition occurrence (s pre a b c post : jsstring) : Prop :=
  s = pre ++ a ++ lit "." ++ b ++ lit "." ++ c ++ post /\
  digits a /\ digits b /\ digits c.

Definition has_version (s : jsstring) : Prop :=
  exists pre a b c post, occurrence s pre a b c post.

Definition contains (s sub : jsstring) : Prop :=
  exists pre post, s = pre ++ sub ++ post.

(** A non-negative integer, as a JavaScript number holds one: a double
    that is not an infinity. *)
Definition natural (n : number) : Prop :=
  0 <= n < Infinity /\ round_double n = n.

Definition valid (v : Version) : Prop :=
  natural (major v) /\ natural (minor v) /\ natural (patch v).

(** From this value on a group of digits reads as [Infinity]. *)
Definition overflow : Z := 2 ^ 1024 - 2 ^ 970.

Fixpoint take_while (p : ascii -> bool) (s : jsstring) : jsstring :=
  match s with
  | c :: t => if p c then c :: take_while p t else []
  | [] => []
  end.

Fixpoint drop_while (p : ascii -> bool) (s : jsstring) : jsstring :=
  match s with
  | c :: t => if p c then drop_while p t else s
  | [] => []
  end.

Definition starts_with (p : ascii -> bool) (s : jsstring) : Prop :=
  match s with
  | c :: _ => p c = true
  | [] => False
  end.

(** *** Closed forms used in the proofs *)

(** The reading of the pattern at the front of [s], when there is one: the
    three runs of digits and what follows the third run. *)
Definition version_at (s : jsstring)
  : option (jsstring * jsstring * jsstring * jsstring) :=
  match take_while is_digit s, drop_while is_digit s with
  | (_ :: _) as a, dot :: s1 =>
      if Ascii.eqb "." dot then
        match take_while is_digit s1, drop_while is_digit s1 with
        | (_ :: _) as b, dot' :: s2 =>
            if Ascii.eqb "." dot' then
              match take_while is_digit s2 with
              | (_ :: _) as c => Some (a, b, c, drop_while is_digit s2)
              | [] => None
              end
            else None
        | _, _ => None
        end
      else None
  | _, _ => None
  end.

Definition not_line_terminator (c : ascii) : bool :=
  negb (is_line_terminator c).

(** The array [exec] builds from such a reading. *)
Definition match_array (m : jsstring * jsstring * jsstring * jsstring)
  : list (option jsstring) :=
  let '(a, b, c, r) := m in
  let tail := take_while not_line_terminator r in
  [Some (a ++ "."%char :: b ++ "."%char :: c ++ tail);
   Some a; Some b; Some c; Some tail].

(** The leftmost reading in [s]. *)
Fixpoint find_version (s : jsstring)
  : option (jsstring * jsstring * jsstring * jsstring) :=
  match version_at s with
  | Some m => Some m
  | None =>
      match s with
      | _ :: t => find_version t
      | [] => None
      end
  end.

(** No occurrence starts before the one after [pre]. *)
Definition leftmost (s pre : jsstring) : Prop :=
  forall pre' a b c post,
    occurrence s pre' a b c post -> (length pre <= length pre')%nat.

(** The message of the error thrown by [parseVersion]. *)
Definition invalid_message (s : jsstring) : jsstring :=
  lit "Invalid version string " ++ s.

(** Case analysis on the comparisons of [compareVersions]. *)
Ltac order_cases :=
  repeat match goal with
  | |- context [?x >? ?y] =>
      let H := fresh "H" in
      destruct (Z.gtb_spec x y) as [H | H]
  | |- context [?x <? ?y] =>
      let H := fresh "H" in
      destruct (Z.ltb_spec x y) as [H | H]
  | |- context [?x =? ?y] =>
      let H := fresh "H" in
      destruct (Z.eqb_spec x y) as [H | H]
  | H : context [?x >? ?y] |- _ =>
      let H' := fresh "H" in
      destruct (Z.gtb_spec x y) as [H' | H']
  | H : context [?x <? ?y] |- _ =>
      let H' := fresh "H" in
      destruct (Z.ltb_spec x y) as [H' | H']
  | H : context [?x =? ?y] |- _ =>
      let H' := fresh "H" in
      destruct (Z.eqb_spec x y) as [H' | H']
  end.

(** ** More of [util.ts]: patterns with assertions, search and replace *)

Module Pattern.

(** A term of a pattern: an atom, or one of the assertions [^] and [$]. *)
Inductive Term : Type :=
| Atom (r : Regex)
| AssertStart
| AssertEnd.

Definition term_groups (t : Term) : list nat :=
  match t with
  | Atom r => groups r
  | AssertStart | AssertEnd => []
  end.

(** The terms of a pattern one after the other; a pattern with no term
    matches the empty string.  [size] is the length of the whole input:
    without the multiline flag [^] holds where nothing has been read and
    [$] where nothing is left. *)
Fixpoint compile_terms (size : nat) (ts : list Term) : Matcher :=
  match ts with
  | [] => fun x c => c x
  | Atom r :: ts' => fun x c =>
      compile r x (fun y => compile_terms size ts' y c)
  | AssertStart :: ts' => fun x c =>
      if Nat.eqb (length (rest x)) size then compile_terms size ts' x c
      else None
  | AssertEnd :: ts' => fun x c =>
      match rest x with
      | [] => compile_terms size ts' x c
      | _ :: _ => None
      end
  end.

(** One attempt where [s] is what is left of an input of length [size]. *)
Definition match_at (size : nat) (ts : list Term) (s : jsstring)
  : option (list (option jsstring)) :=
  let x := mkState s (repeat None (S (length (flat_map term_groups ts)))) in
  match compile_terms size ts x (fun y => Some y) with
  | Some y => Some (set_capture 0 (consumed x y) (captures y))
  | None => None
  end.

(** The first position from the left at which the pattern matches: what
    is skipped before it, and the match array. *)
Fixpoint search (size : nat) (ts : list Term) (s : jsstring)
  : option (jsstring * list (option jsstring)) :=
  match match_at size ts s with
  | Some arr => Some ([], arr)
  | None =>
      match s with
      | c :: t =>
          match search size ts t with
          | Some (skipped, arr) => Some (c :: skipped, arr)
          | None => None
          end
      | [] => None
      end
  end.

(** [RegExp.prototype.test] on a pattern without flags. *)
Definition test (ts : list Term) (s : jsstring) : bool :=
  match search (length s) ts s with
  | Some _ => true
  | None => false
  end.

(** The capture a [$n] or [$nn] reference stands for, when group [index]
    exists: an undefined capture is the empty string. *)
Definition capture_ref (arr : list (option jsstring)) (index : Z)
  : option jsstring :=
  if (1 <=? index) && (index <=? Z.of_nat (length arr) - 1)
  then Some (nullish (at_index arr (Z.to_nat index)) [])
  else None.

(** [GetSubstitution]: the replacement text for one match.  [$$] is a
    dollar sign, [$&] the match, [$`] the input before it, [$'] the input
    after it, [$n] and [$nn] the group of that number when it exists; a
    two-digit reference beyond the groups is read as a one-digit reference
    followed by a digit; everything else stands for itself. *)
Fixpoint GetSubstitution (arr : list (option jsstring))
  (matched before after template : jsstring) : jsstring :=
  match template with
  | [] => []
  | c :: t =>
      if negb (Ascii.eqb c "$") then
        c :: GetSubstitution arr matched before after t
      else
        match t with
        | [] => [c]
        | d :: t' =>
            if Ascii.eqb d "$" then
              "$"%char :: GetSubstitution arr matched before after t'
            else if Ascii.eqb d "`" then
              before ++ GetSubstitution arr matched before after t'
            else if Ascii.eqb d "&" then
              matched ++ GetSubstitution arr matched before after t'
            else if Ascii.eqb d "'" then
              after ++ GetSubstitution arr matched before after t'
            else if is_digit d then
              let one :=
                match capture_ref arr (digit_value d) with
                | Some cap => cap ++ GetSubstitution arr matched before after t'
                | None =>
                    c :: d :: GetSubstitution arr matched before after t'
                end in
              match t' with
              | d' :: t'' =>
                  if is_digit d' then
                    match capture_ref arr
                            (digit_value d * 10 + digit_value d') with
                    | Some cap =>
                        cap ++ GetSubstitution arr matched before after t''
                    | None => one
                    end
                  else one
              | [] => one
              end
            else c :: GetSubstitution arr matched before after t
        end
  end.

(** The loop of [RegExp.prototype[Symbol.replace]] on a global pattern:
    every match from the left is replaced; after an empty match the search
    goes on one character further.  [before] is the input already passed,
    [s] what is left of it. *)
Fixpoint replace_loop (fuel size : nat) (ts : list Term)
  (template before s : jsstring) : jsstring :=
  match fuel with
  | O => s
  | S fuel' =>
      match search size ts s with
      | None => s
      | Some (skipped, arr) =>
          let matched := nullish (at_index arr 0) [] in
          let position := before ++ skipped in
          let after := skipn (length matched) (skipn (length skipped) s) in
          let replacement :=
            GetSubstitution arr matched position after template in
          skipped ++ replacement ++
          match matched, after with
          | [], [] => []
          | [], c :: t =>
              c :: replace_loop fuel' size ts template (position ++ [c]) t
          | _ :: _, _ =>
              replace_loop fuel' size ts template (position ++ matched) after
          end
      end
  end.

(** [str.replace(re, template)] where [re] has the global flag. *)
Definition replace_global (ts : list Term) (template s : jsstring)
  : jsstring :=
  replace_loop (S (length s)) (length s) ts template [] s.

(** The characters with a meaning of their own in a pattern. *)
Definition is_syntax_character (c : ascii) : bool :=
  existsb (Ascii.eqb c) (lit "^$\.*+?()[]{}|").

(** Characters that stand for themselves after a backslash: the syntax
    characters, the slash, and the punctuation [=], [!], [:]. *)
Definition is_identity_escape (c : ascii) : bool :=
  is_syntax_character c || existsb (Ascii.eqb c) (lit "/=!:").

Definition literal (c : ascii) : Term := Atom (char c).

(** [new RegExp(pattern, 'g')] for the patterns made of plain characters
    and identity escapes; [None] stands for every other pattern, among them
    the ones the constructor rejects. *)
Fixpoint RegExp_new (pattern : jsstring) : option (list Term) :=
  match pattern with
  | [] => Some []
  | c :: t =>
      if Ascii.eqb c "\" then
        match t with
        | e :: t' =>
            if is_identity_escape e
            then option_map (cons (literal e)) (RegExp_new t')
            else None
        | [] => None
        end
      else if is_syntax_character c then None
      else option_map (cons (literal c)) (RegExp_new t)
  end.

End Pattern.

Import Pattern.

(** The character class of [escapeStringForRegex]. *)
Definition needs_escape (c : ascii) : bool :=
  existsb (Ascii.eqb c) (lit "\.*+?^=!:${}()|[]/").

Definition escapeStringForRegex (str : jsstring) : jsstring :=
  replace_global [Atom (Group 1 (CharSet needs_escape))] (lit "\$1") str.

(** [None] when the constructed pattern is outside the ones [RegExp_new]
    models; [replaceAll_defined] shows that this never happens. *)
Definition replaceAll (str needle what : jsstring) : option jsstring :=
  let pattern := escapeStringForRegex needle in
  match RegExp_new pattern with
  | Some re => Some (replace_global re what str)
  | None => None
  end.

Definition removeAllPatterns (str : jsstring) (patterns : list jsstring)
  : option jsstring :=
  fold_left
    (fun acc needle =>
       match acc with
       | Some acc => replaceAll acc needle []
       | None => None
       end)
    patterns (Some str).

(** [Array.prototype.join] on an array of strings. *)
Fixpoint join (sep : jsstring) (l : list jsstring) : jsstring :=
  match l with
  | [] => []
  | [x] => x
  | x :: t => x ++ sep ++ join sep t
  end.

Inductive CMakeType : Type :=
| UNKNOWN
| BOOL
| STRING
| FILEPATH.

Record CMakeValue : Type := mkCMakeValue {
  type : CMakeType;
  value : jsstring
}.

(** The argument type [string | boolean | number | string[]]. *)
Inductive CMakeInput : Type :=
| InString (s : jsstring)
| InBoolean (b : bool)
| InNumber (n : number)
| InArray (l : list jsstring).

(** The final [throw] of the source is for values of no such type. *)
Definition cmakeify (v : CMakeInput) : option CMakeValue :=
  match v with
  | InBoolean b =>
      Some {| type := BOOL; value := if b then lit "TRUE" else lit "FALSE" |}
  | InString s =>
      match replaceAll s (lit ";") (lit "\;") with
      | Some escaped => Some {| type := STRING; value := escaped |}
      | None => None
      end
  | InNumber n => Some {| type := STRING; value := Number_toString n |}
  | InArray l => Some {| type := STRING; value := join (lit ";") l |}
  end.

(** [s] without the prefix [p], when it starts with [p]. *)
Fixpoint strip_prefix (p s : jsstring) : option jsstring :=
  match p, s with
  | [], _ => Some s
  | a :: p', b :: s' => if Ascii.eqb a b then strip_prefix p' s' else None
  | _ :: _, [] => None
  end.

(** The loop of [String.prototype.split] with a string separator: [piece]
    is what was read since the last separator, [lim] the number of pieces
    still allowed.  A separator found where the piece and the separator are
    both empty is passed over. *)
Fixpoint split_loop (fuel : nat) (sep : jsstring) (lim : nat)
  (piece s : jsstring) : list jsstring :=
  match fuel with
  | O => [piece ++ s]
  | S fuel' =>
      match s with
      | [] => [piece]
      | c :: t =>
          match strip_prefix sep s with
          | Some after =>
              match sep, piece with
              | [], [] => split_loop fuel' sep lim [c] t
              | _, _ =>
                  match lim with
                  | O | S O => [piece]
                  | S lim' => piece :: split_loop fuel' sep lim' [] after
                  end
              end
          | None => split_loop fuel' sep lim (piece ++ [c]) t
          end
      end
  end.

(** [str.split(sep, lim)] *)
Definition split (s sep : jsstring) (lim : nat) : list jsstring :=
  match lim with
  | O => []
  | _ =>
      match s with
      | [] => match sep with [] => [] | _ :: _ => [[]] end
      | _ :: _ => split_loop (S (2 * length s)) sep lim [] s
      end
  end.

(** [str.substr(start)] for a start that is not negative. *)
Definition substr_from (s : jsstring) (start : nat) : jsstring :=
  skipn start s.

(** The class [\w]. *)
Definition is_word (c : ascii) : bool :=
  let n := code c in
  ((65 <=? n) && (n <=? 90)) || ((97 <=? n) && (n <=? 122)) ||
  is_digit c || (n =? 95).

(** The pattern of [parseCompileDefinition]: [^], one or more word
    characters, [$]. *)
Definition word_re : list Term :=
  [AssertStart; Atom (plus (CharSet is_word)); AssertEnd].

Definition parseCompileDefinition (str : jsstring)
  : jsstring * option jsstring :=
  if test word_re str then (str, None)
  else
    let key := nth 0 (split str (lit "=") 1) [] in
    (key, Some (substr_from str (length key + 1))).

(** What [concat] appends for one argument: the elements of an argument
    that is an array, which [spread] gives, and the argument itself when it
    is any other value. *)
Definition concat_operand {T : Type} (spread : T -> option (list T))
  (item : T) : list T :=
  match spread item with
  | Some elements => elements
  | None => [item]
  end.

(** [prev.concat(item)] *)
Definition Array_concat {T : Type} (spread : T -> option (list T))
  (prev : list T) (item : T) : list T :=
  prev ++ concat_operand spread item.

(** [product]; [T] is the type of the values held in the arrays, and
    [spread] tells which of them are arrays themselves.  In the inner
    [reduce] both operands are arrays of lists, which [concat] joins. *)
Definition product {T : Type} (spread : T -> option (list T))
  (arrays : list (list T)) : list (list T) :=
  fold_left
    (fun acc curr =>
       fold_left (fun a b => a ++ b)
         (map (fun prev => map (fun item => Array_concat spread prev item)
                             curr) acc)
         [])
    arrays [[]].

(** Values for examples: numbers and arrays of values. *)
#[warnings="-register-all"]
Inductive JsValue : Type :=
| Num (n : number)
| Arr (elements : list JsValue).

Definition Array_elements (v : JsValue) : option (list JsValue) :=
  match v with
  | Arr elements => Some elements
  | Num _ => None
  end.

(** [lexicographicalCompare] on finite sequences; [localeCompare] is the
    comparison of the host, whatever it is. *)
Fixpoint lexicographicalCompare (localeCompare : jsstring -> jsstring -> Z)
  (a b : list jsstring) : Z :=
  match a, b with
  | [], [] => 0
  | [], _ :: _ => -1
  | _ :: _, [] => 1
  | x :: a', y :: b' =>
      let comp_res := localeCompare x y in
      if negb (comp_res =? 0) then comp_res
      else lexicographicalCompare localeCompare a' b'
  end.

(** One call of the function [memoize(fn)] returns.  The closure holds
    [result], undefined at first; [fn] may change the world [W] it runs in;
    [truthy] is the truth value of a result in a condition. *)
Definition memoized {W T : Type} (truthy : T -> bool) (fn : W -> T * W)
  (st : option T * W) : T * (option T * W) :=
  let '(result, w) := st in
  match result with
  | Some r =>
      if truthy r then (r, st)
      else let '(r', w') := fn w in (r', (Some r', w'))
  | None => let '(r', w') := fn w in (r', (Some r', w'))
  end.

(** The state after [n] calls, and what the calls returned, oldest first. *)
Fixpoint calls {W T : Type} (truthy : T -> bool) (fn : W -> T * W)
  (n : nat) (st : option T * W) : list T * (option T * W) :=
  match n with
  | O => ([], st)
  | S n' =>
      let '(r, st') := memoized truthy fn st in
      let '(rs, st'') := calls truthy fn n' st' in
      (r :: rs, st'')
  end.

(** A replacement text in which no character is a dollar sign. *)
Definition no_reference (template : jsstring) : Prop :=
  forallb (fun c => negb (Ascii.eqb c "$")) template = true.

(** [r] is [s] with some characters left out. *)
Inductive subsequence : jsstring -> jsstring -> Prop :=
| subsequence_nil : subsequence [] []
| subsequence_keep c r s : subsequence r s -> subsequence (c :: r) (c :: s)
| subsequence_drop c r s : subsequence r s -> subsequence r (c :: s).

(** ** The kit button of [status.ts] *)

(** [a === b] on strings. *)
Definition str_eqb (a b : jsstring) : bool :=
  if list_eq_dec ascii_dec a b then true else false.

(** [localize(key, message)] without arguments and with no translation
    bundle loaded: the default message. *)
Definition localize0 (key message : string) : jsstring := lit message.

Inductive ButtonType : Type :=
| TextButton
| ShortButton
| IconButton
| HiddenButton.

(** What the kit button reads: its text, the [forceHidden] flag, and
    [statusbar.kit.type] and [statusbar.kit.length] of the configuration.
    [unspecified] is the constant [SpecialKits.Unspecified]. *)
Record KitSelection : Type := mkKitSelection {
  kit_text : jsstring;
  kit_forceHidden : bool;
  kit_type : ButtonType;
  kit_length : number
}.

Definition KitSelection_getTextNormal (unspecified : jsstring)
  (b : KitSelection) : jsstring :=
  let text := kit_text b in
  if str_eqb text unspecified then
    lit "[" ++ localize0 "no.active.kit" "No active kit" ++ lit "]"
  else if Nat.eqb (length text) 0 then
    localize0 "no.kit.selected" "No Kit Selected"
  else text.

(** [text.substr(0, len)]: a negative length counts as zero. *)
Definition substr_to (s : jsstring) (len : number) : jsstring :=
  firstn (Z.to_nat len) s.

Definition KitSelection_getTextShort (unspecified : jsstring)
  (b : KitSelection) : jsstring :=
  let len := kit_length b in
  let text := KitSelection_getTextNormal unspecified b in
  if len + 3 <? Z.of_nat (length text)
  then substr_to text len ++ lit "..."
  else text.

(** [Button.getText]: the icon text is the normal text unless a class
    overrides it, and the kit button does not. *)
Definition KitSelection_getText (unspecified : jsstring) (b : KitSelection)
  : jsstring :=
  match kit_type b with
  | IconButton => KitSelection_getTextNormal unspecified b
  | ShortButton => KitSelection_getTextShort unspecified b
  | _ => KitSelection_getTextNormal unspecified b
  end.

(** [Button._isVisible], with the [isVisible] of the base class. *)
Definition KitSelection_isVisible (unspecified : jsstring)
  (b : KitSelection) : bool :=
  true &&
  negb (match kit_type b with HiddenButton => true | _ => false end) &&
  negb (str_eqb (KitSelection_getText unspecified b) []).

(** [Button.update]: whether the item ends up shown. *)
Definition KitSelection_shown (unspecified : jsstring) (b : KitSelection)
  : bool :=
  KitSelection_isVisible unspecified b && negb (kit_forceHidden b).

(** ** [normalizePath] *)

(** The first occurrence of [search] in [s]: what stands before it and
    what stands after it. *)
Fixpoint find_first (search s : jsstring) : option (jsstring * jsstring) :=
  match strip_prefix search s with
  | Some after => Some ([], after)
  | None =>
      match s with
      | c :: t =>
          match find_first search t with
          | Some (before, after) => Some (c :: before, after)
          | None => None
          end
      | [] => None
      end
  end.

(** [s.includes(search)] *)
Definition includes (s search : jsstring) : bool :=
  match find_first search s with
  | Some _ => true
  | None => false
  end.

(** [s.replace(search, template)] with a string to search for: the first
    occurrence is replaced. *)
Definition String_replace (s search template : jsstring) : jsstring :=
  match find_first search s with
  | Some (before, after) =>
      before ++ GetSubstitution [Some search] search before after template
        ++ after
  | None => s
  end.

Inductive Platform : Type :=
| win32
| darwin
| other_platform.

(** What [normalizePath] takes from the host: [path.normalize], the one
    character of [path.sep], [process.platform], and the two string methods
    [toLocaleLowerCase] and [normalize]. *)
Record Host : Type := mkHost {
  path_normalize : jsstring -> jsstring;
  path_sep : ascii;
  platform : Platform;
  toLocaleLowerCase : jsstring -> jsstring;
  String_normalize : jsstring -> jsstring
}.

Inductive NormalizationSetting : Type :=
| always
| never
| by_platform.

Record PathNormalizationOptions : Type := mkOptions {
  normCase : option NormalizationSetting;
  normUnicode : option NormalizationSetting
}.

(** [while (path.sep !== '/' && norm.includes(path.sep))
      norm = norm.replace(path.sep, '/')] *)
Fixpoint separator_loop (fuel : nat) (sep : ascii) (norm : jsstring)
  : jsstring :=
  match fuel with
  | O => norm
  | S fuel' =>
      if negb (str_eqb [sep] (lit "/")) && includes norm [sep]
      then separator_loop fuel' sep (String_replace norm [sep] (lit "/"))
      else norm
  end.

(** [while (norm.includes('//')) norm = replaceAll(norm, '//', '/')] *)
Fixpoint slash_loop (fuel : nat) (norm : jsstring) : option jsstring :=
  match fuel with
  | O => Some norm
  | S fuel' =>
      if includes norm (lit "//") then
        match replaceAll norm (lit "//") (lit "/") with
        | Some norm' => slash_loop fuel' norm'
        | None => None
        end
      else Some norm
  end.

(** The pattern for a slash at the end of the input. *)
Definition trailing_slash_re : list Term := [Atom (char "/"); AssertEnd].

(** Each loop gets the length of its string as fuel; [normalizePath_clean]
    and [separator_loop_done] show that the loops end within it. *)
Definition normalizePath (h : Host) (p : jsstring)
  (opt : option PathNormalizationOptions) : option jsstring :=
  let normCase :=
    match opt with
    | Some o => match normCase o with Some v => v | None => never end
    | None => never
    end in
  let normUnicode :=
    match opt with
    | Some o => match normUnicode o with Some v => v | None => never end
    | None => never
    end in
  let norm := path_normalize h p in
  let norm := separator_loop (length norm) (path_sep h) norm in
  let norm :=
    match normCase with
    | always => toLocaleLowerCase h norm
    | by_platform =>
        match platform h with
        | win32 | darwin => toLocaleLowerCase h norm
        | other_platform => norm
        end
    | never => norm
    end in
  let norm :=
    match normUnicode with
    | always => String_normalize h norm
    | by_platform =>
        match platform h with
        | darwin => String_normalize h norm
        | _ => norm
        end
    | never => norm
    end in
  let norm := replace_global trailing_slash_re [] norm in
  slash_loop (length norm) norm.

Definition lightNormalizePath (h : Host) (p : jsstring) : option jsstring :=
  normalizePath h p (Some {| normCase := Some never; normUnicode := Some never |}).

Definition platformNormalizePath (h : Host) (p : jsstring) : option jsstring :=
  normalizePath h p
    (Some {| normCase := Some by_platform; normUnicode := Some by_platform |}).

Definition heavyNormalizePath (h : Host) (p : jsstring) : option jsstring :=
  normalizePath h p
    (Some {| normCase := Some always; normUnicode := Some always |}).

(** ** Digits and numbers *)

Section Digits.


Lemma is_digit_value (c : ascii) :
  is_digit c = true -> 0 <= digit_value c <= 9.
Proof.
  unfold is_digit, digit_value. intros H.
  apply andb_true_iff in H as [H1 H2].
  apply Z.leb_le in H1. apply Z.leb_le in H2. lia.
Qed.

Lemma is_digit_not_space (c : ascii) :
  is_digit c = true -> is_white_space c = false.
Proof.
  unfold is_digit, is_white_space. intros H.
  apply andb_true_iff in H as [H1 H2].
  apply Z.leb_le in H1. apply Z.leb_le in H2.
  repeat rewrite orb_false_iff. repeat split.
  - apply andb_false_iff. right. apply Z.leb_gt. lia.
  - apply Z.eqb_neq. lia.
  - apply Z.eqb_neq. lia.
Qed.





End Digits.

(** ** Rounding to a double *)

Section Doubles.

Lemma round_double_small (x : Z) : x <= 2 ^ 53 -> round_double x = x.
Proof.
  intros H. unfold round_double.
  destruct (x <? 2 ^ 53) eqn:E; [reflexivity |].
  apply Z.ltb_ge in E. assert (Hx : x = 2 ^ 53) by lia.
  rewrite Hx. vm_compute. reflexivity.
Qed.

(** Above [2 ^ 53]: the significand [q] of 53 bits, the exponent [e] and
    the remainder [r] that decides the rounding. *)
Lemma round_double_large (x : Z) :
  2 ^ 53 <= x ->
  exists e q r,
    1 <= e /\ Z.log2 x = e + 52 /\ 2 ^ 52 <= q < 2 ^ 53 /\ 0 <= r < 2 ^ e /\
    x = q * 2 ^ e + r /\
    round_double x =
      Z.min ((if (2 ^ (e - 1) <? r) || ((r =? 2 ^ (e - 1)) && Z.odd q)
              then q + 1 else q) * 2 ^ e) Infinity.
Proof.
  intros Hx.
  assert (HL : 53 <= Z.log2 x).
  { rewrite <- (Z.log2_pow2 53) by lia. apply Z.log2_le_mono. exact Hx. }
  exists (Z.log2 x - 52), (x / 2 ^ (Z.log2 x - 52)),
    (x mod 2 ^ (Z.log2 x - 52)).
  remember (Z.log2 x - 52) as e eqn:He.
  assert (Hp : 0 < 2 ^ e) by (apply Z.pow_pos_nonneg; lia).
  assert (H0 : 0 < x) by lia.
  destruct (Z.log2_spec x H0) as [Hlo Hhi].
  replace (Z.log2 x) with (52 + e) in Hlo by lia.
  replace (Z.succ (Z.log2 x)) with (53 + e) in Hhi by lia.
  rewrite Z.pow_add_r in Hlo, Hhi by lia.
  pose proof (Z_div_mod_eq_full x (2 ^ e)) as Hdiv.
  pose proof (Z.mod_pos_bound x (2 ^ e) Hp) as Hmod.
  split; [lia |]. split; [lia |]. split; [split |].
  - apply Z.div_le_lower_bound; lia.
  - apply Z.div_lt_upper_bound; lia.
  - split; [exact Hmod |]. split; [lia |].
    unfold round_double. destruct (x <? 2 ^ 53) eqn:E.
    + apply Z.ltb_lt in E. lia.
    + rewrite <- He. reflexivity.
Qed.

Lemma Infinity_large : 10 ^ 21 < Infinity /\ 2 ^ 53 < Infinity.
Proof. split; reflexivity. Qed.

Lemma round_double_le_Infinity (x : Z) : round_double x <= Infinity.
Proof.
  destruct (Z.le_gt_cases (2 ^ 53) x) as [H | H].
  - destruct (round_double_large x H) as (e & q & r & _ & _ & _ & _ & _ & ->).
    apply Z.le_min_r.
  - rewrite round_double_small by lia.
    pose proof (proj2 Infinity_large). lia.
Qed.

(** Rounding does not go below [2 ^ 53] from above it. *)
Lemma round_double_ge (x : Z) : 2 ^ 53 <= x -> 2 ^ 53 <= round_double x.
Proof.
  intros H.
  destruct (round_double_large x H)
    as (e & q & r & He & _ & Hq & Hr & _ & ->).
  apply Z.min_glb; [| pose proof (proj2 Infinity_large); lia].
  assert (Hp : 2 ^ 1 <= 2 ^ e) by (apply Z.pow_le_mono_r; lia).
  change (2 ^ 1) with 2 in Hp.
  match goal with |- _ <= ?k * _ => assert (Hk : 2 ^ 52 <= k)
    by (destruct (_ || _); lia) end.
  change (2 ^ 53) with (2 ^ 52 * 2).
  apply Z.mul_le_mono_nonneg; lia.
Qed.

Lemma round_double_nonneg (x : Z) : 0 <= x -> 0 <= round_double x.
Proof.
  intros H. destruct (Z.le_gt_cases (2 ^ 53) x) as [Hx | Hx].
  - pose proof (round_double_ge x Hx). lia.
  - rewrite round_double_small by lia. exact H.
Qed.


(** A significand of 53 bits with an exponent is a double. *)
Lemma round_double_exact (q e : Z) :
  2 ^ 52 <= q < 2 ^ 53 -> 0 <= e -> q * 2 ^ e <= Infinity ->
  round_double (q * 2 ^ e) = q * 2 ^ e.
Proof.
  intros Hq He Hinf.
  destruct (Z.eq_dec e 0) as [-> | Hne].
  { apply round_double_small. change (2 ^ 0) with 1. lia. }
  assert (Hp : 0 < 2 ^ e) by (apply Z.pow_pos_nonneg; lia).
  assert (Hp1 : 2 ^ 1 <= 2 ^ e) by (apply Z.pow_le_mono_r; lia).
  change (2 ^ 1) with 2 in Hp1.
  assert (Hlog : Z.log2 (q * 2 ^ e) = 52 + e).
  { apply Z.log2_unique; [lia |]. rewrite Z.pow_add_r by lia.
    replace (Z.succ (52 + e)) with (53 + e) by lia.
    rewrite Z.pow_add_r by lia. split.
    - apply Z.mul_le_mono_nonneg_r; lia.
    - apply Z.mul_lt_mono_pos_r; lia. }
  unfold round_double.
  destruct (q * 2 ^ e <? 2 ^ 53) eqn:E.
  { reflexivity. }
  rewrite Hlog. replace (52 + e - 52) with e by lia.
  rewrite Z.div_mul, Z.mod_mul by lia.
  assert (Hhalf : 0 < 2 ^ (e - 1)) by (apply Z.pow_pos_nonneg; lia).
  replace (2 ^ (e - 1) <? 0) with false by (symmetry; apply Z.ltb_ge; lia).
  replace (0 =? 2 ^ (e - 1)) with false by (symmetry; apply Z.eqb_neq; lia).
  cbn [orb andb]. apply Z.min_l. exact Hinf.
Qed.

(** A rounded value is a double: rounding it again changes nothing. *)
Lemma round_double_idempotent (x : Z) :
  round_double (round_double x) = round_double x.
Proof.
  destruct (Z.le_gt_cases (2 ^ 53) x) as [Hx | Hx].
  2: { rewrite (round_double_small x) by lia. apply round_double_small. lia. }
  destruct (round_double_large x Hx)
    as (e & q & r & He & _ & Hq & Hr & _ & ->).
  match goal with |- context [Z.min ?y _] => remember y as y' eqn:Hy end.
  destruct (Z.le_gt_cases Infinity y') as [Hinf | Hinf].
  { rewrite Z.min_r by exact Hinf. vm_compute. reflexivity. }
  rewrite Z.min_l by lia. subst y'.
  destruct ((2 ^ (e - 1) <? r) || ((r =? 2 ^ (e - 1)) && Z.odd q)).
  - destruct (Z.eq_dec (q + 1) (2 ^ 53)) as [Htop | Htop].
    + rewrite Htop in *. change (2 ^ 53) with (2 ^ 52 * 2 ^ 1) in *.
      rewrite <- Z.mul_assoc, <- Z.pow_add_r in * by lia.
      apply round_double_exact; [| lia | lia].
      split; [lia | vm_compute; reflexivity].
    + apply round_double_exact; lia.
  - apply round_double_exact; lia.
Qed.

(** Rounding reaches [Infinity] exactly from [2 ^ 1024 - 2 ^ 970] on: half
    way from the largest finite double to [2 ^ 1024]. *)
Lemma round_double_Infinity (x : Z) :
  round_double x = Infinity <-> 2 ^ 1024 - 2 ^ 970 <= x.
Proof.
  assert (Hsmall : 2 ^ 53 < 2 ^ 1024 - 2 ^ 970) by reflexivity.
  destruct (Z.le_gt_cases (2 ^ 53) x) as [Hx | Hx].
  2: { rewrite round_double_small by lia. pose proof (proj2 Infinity_large).
       lia. }
  destruct (round_double_large x Hx)
    as (e & q & r & He & HL & Hq & Hr & Heq & ->).
  remember (2 ^ e) as P eqn:HP.
  remember ((2 ^ (e - 1) <? r) || ((r =? 2 ^ (e - 1)) && Z.odd q)) as up
    eqn:Hup.
  assert (H971 : 2 ^ 1024 = 2 ^ 53 * 2 ^ 971) by reflexivity.
  assert (H970 : 2 ^ 971 = 2 * 2 ^ 970) by reflexivity.
  assert (Hpos : 0 < 2 ^ 970) by reflexivity.
  unfold Infinity.
  destruct (Z.lt_trichotomy e 971) as [Hlt | [-> | Hgt]].
  - (* the exponent is small: finite *)
    assert (HPle : P <= 2 ^ 970) by (subst P; apply Z.pow_le_mono_r; lia).
    assert (HP0 : 0 < P) by (subst P; apply Z.pow_pos_nonneg; lia).
    assert (Hprod : (if up then q + 1 else q) * P <= 2 ^ 53 * 2 ^ 970)
      by (apply Z.mul_le_mono_nonneg; destruct up; lia).
    assert (HxP : x < 2 ^ 53 * P) by nia.
    assert (Hx970 : 2 ^ 53 * P <= 2 ^ 53 * 2 ^ 970)
      by (apply Z.mul_le_mono_nonneg_l; lia).
    split; intros H.
    + rewrite Z.min_l in H by lia. lia.
    + assert (2 ^ 53 * 2 ^ 970 < 2 ^ 1024 - 2 ^ 970) by reflexivity. lia.
  - (* the top binade *)
    replace (971 - 1) with 970 in Hup by lia.
    rewrite <- HP in * |-. 
    assert (HP971 : P = 2 ^ 971) by exact HP.
    split; intros H.
    + destruct up.
      * symmetry in Hup. apply orb_true_iff in Hup as [Hup | Hup].
        -- apply Z.ltb_lt in Hup. 
           destruct (Z.le_gt_cases (2 ^ 53 - 1) q); [nia |].
           exfalso.
           assert ((q + 1) * P < 2 ^ 53 * P) by (apply Z.mul_lt_mono_pos_r; lia).
           rewrite Z.min_l in H by lia. lia.
        -- apply andb_true_iff in Hup as [Hup _]. apply Z.eqb_eq in Hup.
           destruct (Z.le_gt_cases (2 ^ 53 - 1) q); [nia |].
           exfalso.
           assert ((q + 1) * P < 2 ^ 53 * P) by (apply Z.mul_lt_mono_pos_r; lia).
           rewrite Z.min_l in H by lia. lia.
      * exfalso.
        assert (q * P < 2 ^ 53 * P) by (apply Z.mul_lt_mono_pos_r; lia).
        rewrite Z.min_l in H by lia. lia.
    + assert (Hqtop : q = 2 ^ 53 - 1) by nia.
      assert (Hrhalf : 2 ^ 970 <= r) by nia.
      assert (up = true) as ->.
      { rewrite Hup. apply orb_true_iff.
        destruct (Z.eq_dec r (2 ^ 970)) as [-> | Hne].
        - right. rewrite Z.eqb_refl, Hqtop. reflexivity.
        - left. apply Z.ltb_lt. lia. }
      rewrite Hqtop. replace (2 ^ 53 - 1 + 1) with (2 ^ 53) by lia.
      rewrite <- H971. apply Z.min_id.
  - (* beyond: infinite *)
    assert (HPge : 2 ^ 972 <= P) by (subst P; apply Z.pow_le_mono_r; lia).
    assert (H972 : 2 ^ 1024 = 2 ^ 52 * 2 ^ 972) by reflexivity.
    assert (Hprod : 2 ^ 52 * 2 ^ 972 <= (if up then q + 1 else q) * P)
      by (apply Z.mul_le_mono_nonneg; destruct up; lia).
    split; intros H.
    + assert (2 ^ 52 * 2 ^ 972 <= q * P)
        by (apply Z.mul_le_mono_nonneg; lia).
      lia.
    + apply Z.min_r. lia.
Qed.

End Doubles.

Section ParseInt.

Lemma digit_not_char (c d : ascii) :
  is_digit c = true -> is_digit d = false -> Ascii.eqb c d = false.
Proof.
  intros Hc Hd. destruct (Ascii.eqb_spec c d); [congruence | reflexivity].
Qed.

Lemma radix_prefix_digits (a : jsstring) :
  forallb is_digit a = true ->
  forall acc, radix_prefix 10 (Some acc) a = Some (fold_left step a acc).
Proof.
  induction a as [|c t IH]; intros Ha acc; simpl in *.
  - reflexivity.
  - apply andb_true_iff in Ha as [Hc Ht].
    unfold radix_value. simpl. rewrite Hc. apply IH. exact Ht.
Qed.

Lemma fold_digits_nonneg (a : jsstring) :
  forallb is_digit a = true ->
  forall acc, 0 <= acc -> 0 <= fold_left step a acc.
Proof.
  induction a as [|c t IH]; intros Ha acc Hacc; simpl in *.
  - exact Hacc.
  - apply andb_true_iff in Ha as [Hc Ht].
    apply IH; [exact Ht |]. unfold step.
    pose proof (is_digit_value c Hc). lia.
Qed.

Lemma base10_nonneg (a : jsstring) :
  forallb is_digit a = true -> 0 <= base10 a.
Proof.
  intros Ha. apply (fold_digits_nonneg a Ha 0). lia.
Qed.

(** On a run of digits [parseInt] takes neither the sign nor the
    hexadecimal branch, reads the whole run in base 10 and rounds. *)
Lemma parseInt_digits (a : jsstring) :
  digits a -> parseInt a = Some (round_double (base10 a)).
Proof.
  intros [Hne Ha]. destruct a as [|c t]; [congruence |].
  simpl in Ha. apply andb_true_iff in Ha as [Hc Ht].
  unfold parseInt. simpl. rewrite (is_digit_not_space c Hc).
  rewrite (digit_not_char c "-" Hc eq_refl).
  rewrite (digit_not_char c "+" Hc eq_refl).
  assert (Hrun : radix_prefix 10 None (c :: t) = Some (base10 (c :: t))).
  { simpl. unfold radix_value. simpl. rewrite Hc.
    apply (radix_prefix_digits t Ht). }
  destruct t as [|c1 t'].
  - cbv zeta. rewrite Hrun. f_equal. apply Z.mul_1_l.
  - pose proof Ht as Ht'. simpl in Ht'. apply andb_true_iff in Ht' as [Hc1 _].
    rewrite (digit_not_char c1 "x" Hc1 eq_refl).
    rewrite (digit_not_char c1 "X" Hc1 eq_refl).
    rewrite andb_false_r. cbv zeta. rewrite Hrun. f_equal. apply Z.mul_1_l.
Qed.













End ParseInt.

(** ** The matcher on runs of one character class *)

Section Runs.

Variable p : ascii -> bool.

Lemma take_drop (s : jsstring) : take_while p s ++ drop_while p s = s.
Proof.
  induction s as [|c t IH]; simpl; [reflexivity |].
  destruct (p c); simpl; [rewrite IH |]; reflexivity.
Qed.

Lemma take_while_forallb (s : jsstring) : forallb p (take_while p s) = true.
Proof.
  induction s as [|c t IH]; simpl; [reflexivity |].
  destruct (p c) eqn:Hc; simpl; [rewrite Hc; exact IH | reflexivity].
Qed.

Lemma drop_while_stops (s : jsstring) : ~ starts_with p (drop_while p s).
Proof.
  induction s as [|c t IH]; simpl; [tauto |].
  destruct (p c) eqn:Hc; [exact IH |]. simpl. congruence.
Qed.

Lemma take_while_app (a t : jsstring) :
  forallb p a = true -> take_while p (a ++ t) = a ++ take_while p t.
Proof.
  induction a as [|c a IH]; simpl; intros Ha; [reflexivity |].
  apply andb_true_iff in Ha as [Hc Ha]. rewrite Hc, IH by exact Ha.
  reflexivity.
Qed.

Lemma drop_while_app (a t : jsstring) :
  forallb p a = true -> drop_while p (a ++ t) = drop_while p t.
Proof.
  induction a as [|c a IH]; simpl; intros Ha; [reflexivity |].
  apply andb_true_iff in Ha as [Hc Ha]. rewrite Hc. apply IH, Ha.
Qed.

Lemma take_while_stop (t : jsstring) :
  ~ starts_with p t -> take_while p t = [] /\ drop_while p t = t.
Proof.
  destruct t as [|c t]; simpl; [tauto |].
  destruct (p c); [intros H; exfalso; apply H; reflexivity | tauto].
Qed.


Lemma consumed_app (a t : jsstring) (caps caps' : list (option jsstring)) :
  consumed (mkState (a ++ t) caps) (mkState t caps') = a.
Proof.
  unfold consumed. simpl. rewrite length_app.
  replace (length a + length t - length t)%nat with (length a) by lia.
  rewrite firstn_app, Nat.sub_diag, firstn_all. simpl.
  apply app_nil_r.
Qed.

Lemma consumed_take (s : jsstring) (caps caps' : list (option jsstring)) :
  consumed (mkState s caps) (mkState (drop_while p s) caps') = take_while p s.
Proof.
  rewrite <- (take_drop s) at 1. apply consumed_app.
Qed.

Lemma RepeatStar_S (m : Matcher) (fuel : nat) (x : MatchState)
  (c : Continuation) :
  RepeatStar m [] (S fuel) x c =
  match m x (fun y =>
               if Nat.eqb (length (rest y)) (length (rest x)) then None
               else RepeatStar m [] fuel y c) with
  | Some z => Some z
  | None => c x
  end.
Proof. destruct x. reflexivity. Qed.

Lemma compile_CharSet (s : jsstring) (caps : list (option jsstring))
  (c : Continuation) :
  compile (CharSet p) (mkState s caps) c =
  match s with
  | ch :: t => if p ch then c (mkState t caps) else None
  | [] => None
  end.
Proof. reflexivity. Qed.

Lemma shorter (ch : ascii) (t : jsstring) :
  Nat.eqb (length t) (length (ch :: t)) = false.
Proof. apply Nat.eqb_neq. simpl. lia. Qed.

(** A continuation that refuses to go on while characters of the class
    are still in front makes the iteration read the whole run. *)
Lemma star_reject (c : Continuation) :
  (forall y, starts_with p (rest y) -> c y = None) ->
  forall fuel s caps, (length s <= fuel)%nat ->
  RepeatStar (compile (CharSet p)) [] fuel (mkState s caps) c =
  c (mkState (drop_while p s) caps).
Proof.
  intros Hc. induction fuel as [|fuel IH]; intros s caps Hlen.
  - destruct s; [reflexivity | simpl in Hlen; lia].
  - destruct s as [|ch t]; [reflexivity |]. simpl in Hlen.
    rewrite RepeatStar_S, compile_CharSet. cbn [rest drop_while].
    destruct (p ch) eqn:Hp; [| reflexivity].
    rewrite shorter, IH by lia.
    destruct (c (mkState (drop_while p t) caps)) eqn:Hz; [reflexivity |].
    apply Hc. exact Hp.
Qed.

(** The longest run is tried first: when the continuation accepts it,
    that is the result. *)
Lemma star_accept (c : Continuation) :
  forall fuel s caps z, (length s <= fuel)%nat ->
  c (mkState (drop_while p s) caps) = Some z ->
  RepeatStar (compile (CharSet p)) [] fuel (mkState s caps) c = Some z.
Proof.
  induction fuel as [|fuel IH]; intros s caps z Hlen Hz.
  - destruct s; [exact Hz | simpl in Hlen; lia].
  - destruct s as [|ch t]; [exact Hz |]. simpl in Hlen, Hz.
    rewrite RepeatStar_S, compile_CharSet. cbn [rest].
    destruct (p ch) eqn:Hp; [| exact Hz].
    rewrite shorter, (IH t caps z) by (lia || exact Hz). reflexivity.
Qed.

Lemma plus_unfold (s : jsstring) (caps : list (option jsstring))
  (c : Continuation) :
  compile (plus (CharSet p)) (mkState s caps) c =
  match s with
  | ch :: t =>
      if p ch
      then RepeatStar (compile (CharSet p)) [] (length t) (mkState t caps) c
      else None
  | [] => None
  end.
Proof. reflexivity. Qed.

Lemma group_plus_none (i : nat) (s : jsstring)
  (caps : list (option jsstring)) (c : Continuation) :
  take_while p s = [] ->
  compile (Group i (plus (CharSet p))) (mkState s caps) c = None.
Proof.
  intros Hnil. cbn [compile]. fold (plus (CharSet p)). rewrite plus_unfold.
  destruct s as [|ch t]; [reflexivity |]. simpl in Hnil.
  destruct (p ch); [discriminate | reflexivity].
Qed.

Lemma group_plus_reject (i : nat) (s : jsstring)
  (caps : list (option jsstring)) (c : Continuation) :
  (forall y, starts_with p (rest y) -> c y = None) ->
  take_while p s <> [] ->
  compile (Group i (plus (CharSet p))) (mkState s caps) c =
  c (mkState (drop_while p s) (set_capture i (take_while p s) caps)).
Proof.
  intros Hc Hne. cbn [compile]. fold (plus (CharSet p)). rewrite plus_unfold.
  destruct s as [|ch t]; [simpl in Hne; congruence |].
  simpl in Hne |- *. destruct (p ch) eqn:Hp; [| congruence].
  rewrite star_reject; [| intros y Hy; apply Hc; exact Hy | lia].
  cbn [rest captures].
  pose proof (consumed_take (ch :: t) caps caps) as Hcons.
  cbn [take_while drop_while] in Hcons. rewrite Hp in Hcons.
  rewrite Hcons. reflexivity.
Qed.

Lemma group_plus_accept (i : nat) (s : jsstring)
  (caps : list (option jsstring)) (c : Continuation) (z : MatchState) :
  take_while p s <> [] ->
  c (mkState (drop_while p s) (set_capture i (take_while p s) caps)) = Some z ->
  compile (Group i (plus (CharSet p))) (mkState s caps) c = Some z.
Proof.
  intros Hne Hz. cbn [compile]. fold (plus (CharSet p)). rewrite plus_unfold.
  destruct s as [|ch t]; [simpl in Hne; congruence |].
  cbn [take_while drop_while] in Hne, Hz.
  destruct (p ch) eqn:Hp; [| congruence].
  apply star_accept; [lia |]. cbn [rest captures].
  pose proof (consumed_take (ch :: t) caps caps) as Hcons.
  cbn [take_while drop_while] in Hcons. rewrite Hp in Hcons.
  rewrite Hcons. exact Hz.
Qed.

Lemma group_star_end (i : nat) (s : jsstring)
  (caps : list (option jsstring)) :
  compile (Group i (star (CharSet p))) (mkState s caps) (fun y => Some y) =
  Some (mkState (drop_while p s) (set_capture i (take_while p s) caps)).
Proof.
  cbn [compile star RepeatMatcher rest groups].
  apply star_accept; [lia |]. cbn [rest captures].
  rewrite consumed_take. reflexivity.
Qed.

End Runs.

(** ** The version pattern in closed form *)

Section VersionPattern.

Lemma compile_Seq (r1 r2 : Regex) (x : MatchState) (c : Continuation) :
  compile (Seq r1 r2) x c = compile r1 x (fun y => compile r2 y c).
Proof. reflexivity. Qed.

Lemma compile_dot (r : Regex) (s : jsstring)
  (caps : list (option jsstring)) (c : Continuation) :
  compile (Seq (char ".") r) (mkState s caps) c =
  match s with
  | ch :: t => if Ascii.eqb "." ch then compile r (mkState t caps) c else None
  | [] => None
  end.
Proof. reflexivity. Qed.

Lemma dot_rejects_digit (r : Regex) (c : Continuation) (y : MatchState) :
  starts_with is_digit (rest y) -> compile (Seq (char ".") r) y c = None.
Proof.
  destruct y as [s caps]. rewrite compile_dot. cbn [rest].
  destruct s as [|ch t]; [reflexivity |]. cbn [starts_with]. intros Hch.
  destruct (Ascii.eqb_spec "." ch) as [<- | _]; [| reflexivity].
  vm_compute in Hch. discriminate.
Qed.

Lemma match_here_version (s : jsstring) :
  match_here version_re s = option_map match_array (version_at s).
Proof.
  unfold match_here, version_at.
  change (repeat None (S (group_count version_re)))
    with (@None jsstring :: [None; None; None; None]).
  unfold version_re, digit. rewrite compile_Seq.
  pose proof (take_drop is_digit s) as Hs.
  destruct (take_while is_digit s) as [|a0 a'] eqn:Ha.
  { rewrite group_plus_none by exact Ha. reflexivity. }
  rewrite group_plus_reject;
    [| intros y Hy; apply dot_rejects_digit; exact Hy
     | rewrite Ha; discriminate].
  rewrite Ha, compile_dot.
  destruct (drop_while is_digit s) as [|dot s1] eqn:Hd1; [reflexivity |].
  destruct (Ascii.eqb_spec "." dot) as [<- | _]; [| reflexivity].
  rewrite compile_Seq.
  pose proof (take_drop is_digit s1) as Hs1.
  destruct (take_while is_digit s1) as [|b0 b'] eqn:Hb.
  { rewrite group_plus_none by exact Hb. reflexivity. }
  rewrite group_plus_reject;
    [| intros y Hy; apply dot_rejects_digit; exact Hy
     | rewrite Hb; discriminate].
  rewrite Hb, compile_dot.
  destruct (drop_while is_digit s1) as [|dot' s2] eqn:Hd2; [reflexivity |].
  destruct (Ascii.eqb_spec "." dot') as [<- | _]; [| reflexivity].
  rewrite compile_Seq.
  pose proof (take_drop is_digit s2) as Hs2.
  destruct (take_while is_digit s2) as [|c0 c'] eqn:Hc.
  { rewrite group_plus_none by exact Hc. reflexivity. }
  erewrite group_plus_accept;
    [| rewrite Hc; discriminate | apply group_star_end].
  rewrite Hc. cbn [captures set_capture option_map match_array].
  pose proof (take_drop not_line_terminator (drop_while is_digit s2)) as Hr.
  set (r := drop_while is_digit s2) in *.
  set (tail := take_while not_line_terminator r) in *.
  set (after := drop_while not_line_terminator r) in *.
  match goal with
  | |- context [consumed ?x ?y] =>
      assert (Hwhole : consumed x y =
        (a0 :: a') ++ "."%char :: (b0 :: b') ++ "."%char :: (c0 :: c') ++ tail)
  end.
  { replace s with
      (((a0 :: a') ++ "."%char :: (b0 :: b') ++ "."%char :: (c0 :: c') ++ tail)
         ++ after).
    { apply consumed_app. }
    rewrite <- Hs, <- Hs1, <- Hs2, <- Hr.
    repeat (rewrite <- app_assoc; simpl). reflexivity. }
  rewrite Hwhole. reflexivity.
Qed.

Lemma exec_version (s : jsstring) :
  exec version_re s = option_map match_array (find_version s).
Proof.
  induction s as [|ch t IH].
  - reflexivity.
  - cbn [exec find_version]. rewrite match_here_version.
    destruct (version_at (ch :: t)); [reflexivity | exact IH].
Qed.

End VersionPattern.

(** ** Readings and occurrences *)

Section Occurrences.

Lemma digits_take_while (s : jsstring) :
  take_while is_digit s <> [] -> digits (take_while is_digit s).
Proof.
  intros Hne. split; [exact Hne | apply take_while_forallb].
Qed.

Lemma dot_not_digit (t : jsstring) : ~ starts_with is_digit ("."%char :: t).
Proof. simpl. vm_compute. discriminate. Qed.

Lemma version_at_sound (s a b c r : jsstring) :
  version_at s = Some (a, b, c, r) ->
  s = a ++ "."%char :: b ++ "."%char :: c ++ r /\
  digits a /\ digits b /\ digits c /\ ~ starts_with is_digit r.
Proof.
  unfold version_at.
  pose proof (take_drop is_digit s) as Hs.
  pose proof (digits_take_while s) as Ha.
  destruct (take_while is_digit s) as [|a0 a'] eqn:Ea; [discriminate |].
  destruct (drop_while is_digit s) as [|dot s1] eqn:Es1; [discriminate |].
  destruct (Ascii.eqb_spec "." dot) as [<- | _]; [| discriminate].
  pose proof (take_drop is_digit s1) as Hs1.
  pose proof (digits_take_while s1) as Hb.
  destruct (take_while is_digit s1) as [|b0 b'] eqn:Eb; [discriminate |].
  destruct (drop_while is_digit s1) as [|dot' s2] eqn:Es2; [discriminate |].
  destruct (Ascii.eqb_spec "." dot') as [<- | _]; [| discriminate].
  pose proof (take_drop is_digit s2) as Hs2.
  pose proof (digits_take_while s2) as Hc.
  pose proof (drop_while_stops is_digit s2) as Hr.
  destruct (take_while is_digit s2) as [|c0 c'] eqn:Ec; [discriminate |].
  intros H. injection H as <- <- <- <-.
  repeat split; try (apply Ha || apply Hb || apply Hc); try discriminate;
    try exact Hr.
  rewrite <- Hs, <- Hs1. rewrite Hs2. reflexivity.
Qed.

Lemma split_run (a t : jsstring) :
  digits a ->
  take_while is_digit (a ++ "."%char :: t) = a /\
  drop_while is_digit (a ++ "."%char :: t) = "."%char :: t.
Proof.
  intros [_ Ha].
  rewrite take_while_app, drop_while_app by exact Ha.
  destruct (take_while_stop is_digit _ (dot_not_digit t)) as [-> ->].
  rewrite app_nil_r. split; reflexivity.
Qed.

Lemma version_at_complete (a b c post : jsstring) :
  digits a -> digits b -> digits c ->
  version_at (a ++ "."%char :: b ++ "."%char :: c ++ post) =
  Some (a, b, c ++ take_while is_digit post, drop_while is_digit post).
Proof.
  intros Ha Hb Hc. unfold version_at.
  destruct (split_run a (b ++ "."%char :: c ++ post) Ha) as [-> ->].
  destruct a as [|a0 a']; [destruct Ha; congruence |].
  rewrite Ascii.eqb_refl.
  destruct (split_run b (c ++ post) Hb) as [-> ->].
  destruct b as [|b0 b']; [destruct Hb; congruence |].
  rewrite Ascii.eqb_refl.
  destruct Hc as [Hne Hc].
  rewrite take_while_app, drop_while_app by exact Hc.
  destruct c as [|c0 c']; [congruence |]. reflexivity.
Qed.


Lemma occurrence_cons (ch : ascii) (s pre a b c post : jsstring) :
  occurrence s pre a b c post -> occurrence (ch :: s) (ch :: pre) a b c post.
Proof.
  intros [-> H]. split; [reflexivity | exact H].
Qed.

Lemma leftmost_tail (ch : ascii) (s pre : jsstring) :
  leftmost (ch :: s) (ch :: pre) -> leftmost s pre.
Proof.
  intros Hl pre' a b c post Hocc.
  specialize (Hl _ _ _ _ _ (occurrence_cons ch _ _ _ _ _ _ Hocc)).
  simpl in Hl. lia.
Qed.

Lemma find_version_here (s : jsstring)
  (m : jsstring * jsstring * jsstring * jsstring) :
  version_at s = Some m -> find_version s = Some m.
Proof.
  intros H. destruct s; cbn [find_version]; rewrite H; reflexivity.
Qed.

Lemma occurrence_at (s a b c post : jsstring) :
  occurrence s [] a b c post ->
  version_at s =
  Some (a, b, c ++ take_while is_digit post, drop_while is_digit post).
Proof.
  intros (-> & Ha & Hb & Hc). exact (version_at_complete a b c post Ha Hb Hc).
Qed.

(** The leftmost occurrence is the one [find_version] reads, with the
    third run taken as far as the digits go. *)
Lemma find_version_leftmost (pre a b c post : jsstring) :
  forall s, occurrence s pre a b c post -> leftmost s pre ->
  find_version s =
  Some (a, b, c ++ take_while is_digit post, drop_while is_digit post).
Proof.
  induction pre as [|ch pre IH]; intros s Hocc Hleft.
  - apply find_version_here, occurrence_at, Hocc.
  - pose proof Hocc as (-> & Ha & Hb & Hc).
    cbn [app find_version].
    destruct (version_at (ch :: pre ++ a ++ lit "." ++ b ++ lit "." ++ c ++ post))
      as [[[[a1 b1] c1] r1] |] eqn:Hat.
    + exfalso. apply version_at_sound in Hat as (Heq & Ha1 & Hb1 & Hc1 & _).
      assert (Hfront : occurrence
                ((ch :: pre) ++ a ++ lit "." ++ b ++ lit "." ++ c ++ post)
                [] a1 b1 c1 r1).
      { split; [exact Heq | tauto]. }
      specialize (Hleft _ _ _ _ _ Hfront). simpl in Hleft. lia.
    + apply IH; [split; [reflexivity | tauto] |].
      apply (leftmost_tail ch). exact Hleft.
Qed.

Lemma find_version_sound (s a b c r : jsstring) :
  find_version s = Some (a, b, c, r) ->
  exists pre, occurrence s pre a b c r /\ leftmost s pre /\
              ~ starts_with is_digit r.
Proof.
  induction s as [|ch t IH]; cbn [find_version].
  - discriminate.
  - destruct (version_at (ch :: t)) as [m |] eqn:Hat.
    + intros H. injection H as ->.
      apply version_at_sound in Hat as (Heq & Ha & Hb & Hc & Hr).
      exists []. split; [split; [exact Heq | tauto] |].
      split; [| exact Hr]. intros pre' a' b' c' post' _. simpl. lia.
    + intros H. destruct (IH H) as (pre & Hocc & Hleft & Hr).
      exists (ch :: pre). split; [apply occurrence_cons, Hocc |].
      split; [| exact Hr].
      intros pre' a' b' c' post' Hocc'.
      destruct pre' as [|ch' pre'].
      * rewrite (occurrence_at _ _ _ _ _ Hocc') in Hat. discriminate.
      * destruct Hocc' as (Heq & Hd). simpl in Heq.
        injection Heq as -> ->.
        assert (Hocc'' : occurrence
                  (pre' ++ a' ++ lit "." ++ b' ++ lit "." ++ c' ++ post')
                  pre' a' b' c' post') by (split; [reflexivity | exact Hd]).
        specialize (Hleft _ _ _ _ _ Hocc''). simpl. lia.
Qed.

Lemma find_version_none (s : jsstring) :
  find_version s = None <-> ~ has_version s.
Proof.
  split.
  - intros Hnone (pre & a & b & c & post & Hocc). revert s Hnone Hocc.
    induction pre as [|ch pre IH]; intros s Hnone Hocc.
    + rewrite (find_version_here _ _ (occurrence_at _ _ _ _ _ Hocc)) in Hnone.
      discriminate.
    + destruct Hocc as (-> & Ha & Hb & Hc).
      cbn [app find_version] in Hnone.
      destruct (version_at _); [discriminate |].
      apply (IH _ Hnone). split; [reflexivity | tauto].
  - intros Hno. destruct (find_version s) as [[[[a b] c] r] |] eqn:Hf;
      [| reflexivity].
    exfalso. apply Hno. apply find_version_sound in Hf as (pre & Hocc & _).
    exists pre, a, b, c, r. exact Hocc.
Qed.

End Occurrences.

(** ** [parseVersion] in closed form *)

Section ParseVersion.

Lemma localize_invalid (s : jsstring) :
  localize "invalid.version.string" "Invalid version string {0}" s =
  invalid_message s.
Proof.
  unfold localize, invalid_message. cbn. rewrite app_nil_r. reflexivity.
Qed.

Lemma parseVersion_find (s : jsstring) :
  parseVersion s =
  match find_version s with
  | Some (a, b, c, _) =>
      Normal (mkVersion (round_double (base10 a)) (round_double (base10 b))
                (round_double (base10 c)))
  | None => Throw (InvalidVersionString (invalid_message s))
  end.
Proof.
  unfold parseVersion. rewrite exec_version, localize_invalid.
  destruct (find_version s) as [[[[a b] c] r] |] eqn:Hf; [| reflexivity].
  apply find_version_sound in Hf as (pre & (_ & Ha & Hb & Hc) & _).
  cbn [option_map match_array at_index nth_error nullish].
  rewrite (parseInt_digits a Ha), (parseInt_digits b Hb),
    (parseInt_digits c Hc).
  reflexivity.
Qed.

(** The integers of the model suffice: no field is ever [NaN]. *)
Lemma parseVersion_integer (s : jsstring) : parseVersion s <> NotAnInteger.
Proof.
  rewrite parseVersion_find.
  destruct (find_version s) as [[[[a b] c] r] |]; discriminate.
Qed.

Lemma parseVersion_throws (s : jsstring) (e : Error) :
  parseVersion s = Throw e ->
  ~ has_version s /\ e = InvalidVersionString (invalid_message s).
Proof.
  rewrite parseVersion_find.
  destruct (find_version s) as [[[[a b] c] r] |] eqn:Hf; [discriminate |].
  intros H. injection H as <-. split; [| reflexivity].
  apply find_version_none, Hf.
Qed.

Lemma parseVersion_has_version (s : jsstring) :
  has_version s ->
  exists a b c r, find_version s = Some (a, b, c, r) /\
    parseVersion s =
    Normal (mkVersion (round_double (base10 a)) (round_double (base10 b))
              (round_double (base10 c))).
Proof.
  intros Hv. rewrite parseVersion_find.
  destruct (find_version s) as [[[[a b] c] r] |] eqn:Hf.
  - exists a, b, c, r. split; reflexivity.
  - apply find_version_none in Hf. contradiction.
Qed.

Lemma compareVersions_versions (a b : Version) :
  compareVersions (OfVersion a) (OfVersion b) =
  Normal
    (if major a >? major b then Greater
     else if major a <? major b then Less
     else if minor a >? minor b then Greater
     else if minor a <? minor b then Less
     else if patch a >? patch b then Greater
     else if patch a <? patch b then Less
     else Equivalent).
Proof. reflexivity. Qed.

End ParseVersion.

Lemma Version_eq (a b : Version) :
  major a = major b -> minor a = minor b -> patch a = patch b -> a = b.
Proof.
  destruct a, b. simpl. intros -> -> ->. reflexivity.
Qed.

(** ** The claims *)

(** C1. [compareVersions] compares two versions lexicographically over
    (major, minor, patch): the first component that differs decides between
    [Greater] and [Less], and three equal components give [Equivalent]. *)
Theorem compareVersions_lexicographic (a b : Version) :
  exists r, compareVersions (OfVersion a) (OfVersion b) = Normal r /\
    (major a > major b -> r = Greater) /\
    (major a < major b -> r = Less) /\
    (major a = major b -> minor a > minor b -> r = Greater) /\
    (major a = major b -> minor a < minor b -> r = Less) /\
    (major a = major b -> minor a = minor b -> patch a > patch b ->
     r = Greater) /\
    (major a = major b -> minor a = minor b -> patch a < patch b ->
     r = Less) /\
    (major a = major b -> minor a = minor b -> patch a = patch b ->
     r = Equivalent).
Proof.
  eexists. split; [apply compareVersions_versions |].
  repeat split; intros; order_cases; (reflexivity || lia).
Qed.

(** C2, as amended.  When the input holds digits-dot-digits-dot-digits
    somewhere, [parseVersion] returns normally; the three groups captured by
    the pattern are runs of digits standing in the input around two dots,
    the fields of the result are these groups read in base 10 and rounded
    to a double, which is the value read when it is at most [2 ^ 53], and
    what follows the third group is dropped. *)
Theorem parseVersion_valid_string :
  (forall s, has_version s ->
     exists mat a b c,
       exec version_re s = Some mat /\
       at_index mat 1 = Some a /\ at_index mat 2 = Some b /\
       at_index mat 3 = Some c /\
       digits a /\ digits b /\ digits c /\
       (exists pre post, s = pre ++ a ++ lit "." ++ b ++ lit "." ++ c ++ post) /\
       parseVersion s =
       Normal {| major := round_double (base10 a);
                 minor := round_double (base10 b);
                 patch := round_double (base10 c) |} /\
       (base10 a <= 2 ^ 53 -> base10 b <= 2 ^ 53 -> base10 c <= 2 ^ 53 ->
        parseVersion s =
        Normal {| major := base10 a; minor := base10 b;
                  patch := base10 c |})) /\
  parseVersion (lit "1.2.3-rc1") =
  Normal {| major := 1; minor := 2; patch := 3 |}.
Proof.
  split; [| reflexivity].
  intros s Hv.
  destruct (parseVersion_has_version s Hv) as (a & b & c & r & Hf & Hp).
  exists (match_array (a, b, c, r)), a, b, c.
  rewrite exec_version, Hf.
  destruct (find_version_sound _ _ _ _ _ Hf)
    as (pre & (Heq & Ha & Hb & Hc) & _).
  repeat split; try (apply Ha || apply Hb || apply Hc).
  - exists pre, r. exact Heq.
  - exact Hp.
  - intros Ga Gb Gc. rewrite Hp.
    rewrite !round_double_small by assumption. reflexivity.
Qed.

Lemma parseVersion_valid_string_witness :
  has_version (lit "v3.20.1-rc2") /\
  exists mat a b c,
    exec version_re (lit "v3.20.1-rc2") = Some mat /\
    at_index mat 1 = Some a /\ at_index mat 2 = Some b /\
    at_index mat 3 = Some c /\
    digits a /\ digits b /\ digits c /\
    (exists pre post,
       lit "v3.20.1-rc2" = pre ++ a ++ lit "." ++ b ++ lit "." ++ c ++ post) /\
    parseVersion (lit "v3.20.1-rc2") =
    Normal {| major := round_double (base10 a);
              minor := round_double (base10 b);
              patch := round_double (base10 c) |} /\
    (base10 a <= 2 ^ 53 -> base10 b <= 2 ^ 53 -> base10 c <= 2 ^ 53 ->
     parseVersion (lit "v3.20.1-rc2") =
     Normal {| major := base10 a; minor := base10 b; patch := base10 c |}).
Proof.
  assert (H : has_version (lit "v3.20.1-rc2")).
  { exists (lit "v"), (lit "3"), (lit "20"), (lit "1"), (lit "-rc2").
    repeat split; discriminate. }
  split; [exact H |].
  apply (proj1 parseVersion_valid_string). exact H.
Defined.

(** C2 as stated fails above [2 ^ 53]: the group [9007199254740993] reads
    in base 10 as [2 ^ 53 + 1], which is no double, and [parseInt] returns
    [2 ^ 53]. *)
Lemma parseVersion_valid_string_fails :
  let s := lit "9007199254740993.0.0" in
  has_version s /\
  exec version_re s =
    Some [Some s; Some (lit "9007199254740993"); Some (lit "0");
          Some (lit "0"); Some []] /\
  base10 (lit "9007199254740993") = 2 ^ 53 + 1 /\
  parseVersion s = Normal {| major := 2 ^ 53; minor := 0; patch := 0 |} /\
  parseVersion s <>
    Normal {| major := base10 (lit "9007199254740993");
              minor := base10 (lit "0"); patch := base10 (lit "0") |}.
Proof.
  cbv zeta. split.
  { exists [], (lit "9007199254740993"), (lit "0"), (lit "0"), [].
    repeat split; discriminate. }
  split; [vm_compute; reflexivity |].
  split; [vm_compute; reflexivity |].
  split; [vm_compute; reflexivity |].
  vm_compute. discriminate.
Qed.

(** C3. When the input holds no digits-dot-digits-dot-digits,
    [parseVersion] throws [InvalidVersionString] with a message that contains
    the input; this is the only way [parseVersion] and [compareVersions]
    fail, and [compareVersions] fails only through a string argument that
    does not parse. *)
Theorem parseVersion_invalid_string :
  (forall s, ~ has_version s ->
     exists message,
       parseVersion s = Throw (InvalidVersionString message) /\
       contains message s) /\
  parseVersion (lit "abc") =
  Throw (InvalidVersionString (lit "Invalid version string abc")) /\
  (forall s, parseVersion s <> NotAnInteger) /\
  (forall s e, parseVersion s = Throw e ->
     ~ has_version s /\ e = InvalidVersionString (invalid_message s)) /\
  (forall a b e, compareVersions a b = Throw e ->
     exists s, (a = OfString s \/ b = OfString s) /\ ~ has_version s /\
               e = InvalidVersionString (invalid_message s) /\
               contains (invalid_message s) s).
Proof.
  assert (Hcontains : forall s, contains (invalid_message s) s).
  { intros s. exists (lit "Invalid version string "), [].
    unfold invalid_message. rewrite app_nil_r. reflexivity. }
  split; [| split; [reflexivity | split; [exact parseVersion_integer |]]].
  - intros s Hno. exists (invalid_message s). split; [| apply Hcontains].
    rewrite parseVersion_find.
    apply find_version_none in Hno. rewrite Hno. reflexivity.
  - split; [exact parseVersion_throws |].
    intros a b e H. unfold compareVersions in H.
    destruct a as [va | sa]; cbn [toVersion bind] in H.
    + destruct b as [vb | sb]; cbn [toVersion bind] in H; [discriminate |].
      destruct (parseVersion sb) as [vb | eb |] eqn:Hb;
        cbn [bind] in H; try discriminate.
      injection H as <-. apply parseVersion_throws in Hb as [Hno ->].
      exists sb. auto.
    + destruct (parseVersion sa) as [va | ea |] eqn:Ha; cbn [bind] in H.
      * destruct b as [vb | sb]; cbn [toVersion bind] in H; [discriminate |].
        destruct (parseVersion sb) as [vb | eb |] eqn:Hb;
          cbn [bind] in H; try discriminate.
        injection H as <-. apply parseVersion_throws in Hb as [Hno ->].
        exists sb. auto.
      * injection H as <-. apply parseVersion_throws in Ha as [Hno ->].
        exists sa. auto.
      * discriminate.
Qed.

Lemma no_version_abc : ~ has_version (lit "abc").
Proof.
  apply find_version_none. reflexivity.
Qed.

Lemma parseVersion_invalid_string_witness :
  ~ has_version (lit "abc") /\
  exists message,
    parseVersion (lit "abc") = Throw (InvalidVersionString message) /\
    contains message (lit "abc").
Proof.
  split; [exact no_version_abc |].
  apply (proj1 parseVersion_invalid_string). exact no_version_abc.
Defined.

(** C4. On versions [compareVersions] is a total order: it is reflexive, it
    returns exactly one of the three orderings, [Greater] one way is [Less]
    the other way, [Equivalent] holds only between equal versions, and
    [Greater] is transitive. *)
Theorem compareVersions_total_order (a b c : Version) :
  compareVersions (OfVersion a) (OfVersion a) = Normal Equivalent /\
  (exists o, compareVersions (OfVersion a) (OfVersion b) = Normal o /\
     forall o', compareVersions (OfVersion a) (OfVersion b) = Normal o' ->
                o' = o) /\
  (compareVersions (OfVersion a) (OfVersion b) = Normal Greater <->
   compareVersions (OfVersion b) (OfVersion a) = Normal Less) /\
  (compareVersions (OfVersion a) (OfVersion b) = Normal Equivalent <->
   a = b) /\
  (compareVersions (OfVersion a) (OfVersion b) = Normal Greater ->
   compareVersions (OfVersion b) (OfVersion c) = Normal Greater ->
   compareVersions (OfVersion a) (OfVersion c) = Normal Greater).
Proof.
  rewrite !compareVersions_versions. repeat split.
  - order_cases; (reflexivity || lia).
  - eexists. split; [reflexivity |]. intros o' H. injection H as <-.
    reflexivity.
  - intros H. order_cases; (reflexivity || discriminate || lia).
  - intros H. order_cases; (reflexivity || discriminate || lia).
  - intros H. apply Version_eq; order_cases; (discriminate || lia).
  - intros ->. order_cases; (reflexivity || lia).
  - intros H1 H2. order_cases; (reflexivity || discriminate || lia).
Qed.

(** C5. A string argument of [compareVersions] is parsed first, and a parse
    failure is the failure of the comparison; so a string that holds a
    version compares [Equivalent] with the version parsed from it. *)
Theorem compareVersions_string_struct :
  (forall s, has_version s ->
     exists v, parseVersion s = Normal v /\
       compareVersions (OfString s) (OfVersion v) = Normal Equivalent /\
       compareVersions (OfVersion v) (OfString s) = Normal Equivalent) /\
  compareVersions (OfString (lit "1.2.3"))
    (OfVersion {| major := 1; minor := 2; patch := 3 |}) = Normal Equivalent /\
  (forall s v b, parseVersion s = Normal v ->
     compareVersions (OfString s) b = compareVersions (OfVersion v) b) /\
  (forall s v a, parseVersion s = Normal v ->
     compareVersions a (OfString s) = compareVersions a (OfVersion v)) /\
  (forall s e b, parseVersion s = Throw e ->
     compareVersions (OfString s) b = Throw e) /\
  (forall s e a va, toVersion a = Normal va -> parseVersion s = Throw e ->
     compareVersions a (OfString s) = Throw e).
Proof.
  assert (Hleft : forall s v b, parseVersion s = Normal v ->
            compareVersions (OfString s) b = compareVersions (OfVersion v) b).
  { intros s v b H. unfold compareVersions. cbn [toVersion]. rewrite H.
    reflexivity. }
  assert (Hright : forall s v a, parseVersion s = Normal v ->
            compareVersions a (OfString s) = compareVersions a (OfVersion v)).
  { intros s v a H. unfold compareVersions. cbn [toVersion]. rewrite H.
    reflexivity. }
  split; [| split; [reflexivity | split; [exact Hleft | split; [exact Hright |]]]].
  - intros s Hv.
    destruct (parseVersion_has_version s Hv) as (a & b & c & r & _ & Hp).
    eexists. split; [exact Hp |].
    rewrite (Hleft _ _ _ Hp), (Hright _ _ _ Hp), compareVersions_versions.
    cbn [major minor patch].
    split; order_cases; (reflexivity || lia).
  - split.
    + intros s e b H. unfold compareVersions. cbn [toVersion]. rewrite H.
      reflexivity.
    + intros s e a va Ha H. unfold compareVersions. rewrite Ha.
      cbn [toVersion bind]. rewrite H. reflexivity.
Qed.

Lemma compareVersions_string_struct_witness :
  has_version (lit "3.16.2-dirty") /\
  exists v, parseVersion (lit "3.16.2-dirty") = Normal v /\
    compareVersions (OfString (lit "3.16.2-dirty")) (OfVersion v) =
      Normal Equivalent /\
    compareVersions (OfVersion v) (OfString (lit "3.16.2-dirty")) =
      Normal Equivalent.
Proof.
  assert (H : has_version (lit "3.16.2-dirty")).
  { exists [], (lit "3"), (lit "16"), (lit "2"), (lit "-dirty").
    repeat split; discriminate. }
  split; [exact H |].
  apply (proj1 compareVersions_string_struct). exact H.
Defined.



(** Above [2 ^ 53] the printed digits are not those of the field: [2 ^ 60]
    is [1152921504606846976] and prints with sixteen significant digits,
    which [parseInt] rounds back to [2 ^ 60]. *)
Example versionToString_shortest :
  versionToString {| major := 2 ^ 60; minor := 0; patch := 0 |} =
    lit "1152921504606847000.0.0" /\
  parseVersion (lit "1152921504606847000.0.0") =
    Normal {| major := 2 ^ 60; minor := 0; patch := 0 |}.
Proof. split; vm_compute; reflexivity. Qed.


(** The sign of a negative field is not part of what the pattern reads. *)
Example versionToString_negative :
  versionToString {| major := -1; minor := 2; patch := 3 |} = lit "-1.2.3" /\
  parseVersion (versionToString {| major := -1; minor := 2; patch := 3 |}) =
  Normal {| major := 1; minor := 2; patch := 3 |}.
Proof. split; reflexivity. Qed.

(** C7. Each boolean wrapper is its predicate over the result of
    [compareVersions], and fails when the comparison fails. *)
Theorem version_predicates (a b : VersionOrString) :
  (versionGreater a b = Normal true <->
   compareVersions a b = Normal Greater) /\
  (versionGreaterOrEquals a b = Normal true <->
   compareVersions a b = Normal Greater \/
   compareVersions a b = Normal Equivalent) /\
  (versionEquals a b = Normal true <->
   compareVersions a b = Normal Equivalent) /\
  (versionLess a b = Normal true <->
   compareVersions a b = Normal Less) /\
  (versionLessOrEquals a b = Normal true <->
   compareVersions a b = Normal Less \/
   compareVersions a b = Normal Equivalent) /\
  (forall o, compareVersions a b = Normal o ->
     versionGreater a b =
       Normal (match o with Greater => true | _ => false end) /\
     versionGreaterOrEquals a b =
       Normal (match o with Less => false | _ => true end) /\
     versionEquals a b =
       Normal (match o with Equivalent => true | _ => false end) /\
     versionLess a b =
       Normal (match o with Less => true | _ => false end) /\
     versionLessOrEquals a b =
       Normal (match o with Greater => false | _ => true end)) /\
  (forall e, compareVersions a b = Throw e ->
     versionGreater a b = Throw e /\
     versionGreaterOrEquals a b = Throw e /\
     versionEquals a b = Throw e /\
     versionLess a b = Throw e /\
     versionLessOrEquals a b = Throw e) /\
  versionGreaterOrEquals (OfString (lit "1.0.0")) (OfString (lit "1.0.0")) =
    Normal true /\
  versionLess (OfString (lit "1.0.0")) (OfString (lit "1.0.1")) = Normal true.
Proof.
  unfold versionGreater, versionGreaterOrEquals, versionEquals, versionLess,
    versionLessOrEquals.
  destruct (compareVersions a b) as [[] | e |]; cbn;
    repeat split; intros; try discriminate; try reflexivity;
    try (left; reflexivity); try (right; reflexivity);
    try (match goal with H : _ \/ _ |- _ => destruct H; discriminate end);
    try (match goal with H : Normal _ = Normal _ |- _ => injection H as <- end);
    try (match goal with H : Throw _ = Throw _ |- _ => injection H as <- end);
    reflexivity.
Qed.


(** C9, as amended.  When [parseVersion] returns, the match array holds
    the three groups, each a non-empty run of digits, so the [?? '0']
    defaults are never taken; each field is the double its group rounds to:
    a non-negative integer, or [Infinity] when the group reads as
    [2 ^ 1024 - 2 ^ 970] or more. *)
Theorem parseVersion_groups_present (s : jsstring) (v : Version) :
  parseVersion s = Normal v ->
  exists mat a b c,
    exec version_re s = Some mat /\
    at_index mat 1 = Some a /\ at_index mat 2 = Some b /\
    at_index mat 3 = Some c /\
    digits a /\ digits b /\ digits c /\
    nullish (at_index mat 1) (lit "0") = a /\
    nullish (at_index mat 2) (lit "0") = b /\
    nullish (at_index mat 3) (lit "0") = c /\
    v = {| major := round_double (base10 a);
           minor := round_double (base10 b);
           patch := round_double (base10 c) |} /\
    (forall f, In f [major v; minor v; patch v] ->
       0 <= f <= Infinity /\ round_double f = f) /\
    (major v = Infinity <-> overflow <= base10 a) /\
    (minor v = Infinity <-> overflow <= base10 b) /\
    (patch v = Infinity <-> overflow <= base10 c) /\
    (valid v <->
     base10 a < overflow /\ base10 b < overflow /\ base10 c < overflow).
Proof.
  rewrite parseVersion_find, exec_version.
  destruct (find_version s) as [[[[a b] c] r] |] eqn:Hf; [| discriminate].
  intros H. injection H as <-.
  destruct (find_version_sound _ _ _ _ _ Hf)
    as (pre & (_ & Ha & Hb & Hc) & _).
  assert (Hfield : forall g, digits g ->
            (0 <= round_double (base10 g) <= Infinity /\
             round_double (round_double (base10 g)) =
             round_double (base10 g)) /\
            (round_double (base10 g) = Infinity <-> overflow <= base10 g) /\
            (natural (round_double (base10 g)) <-> base10 g < overflow)).
  { intros g [_ Hg]. pose proof (base10_nonneg g Hg) as H0.
    pose proof (round_double_nonneg _ H0) as H1.
    pose proof (round_double_le_Infinity (base10 g)) as H2.
    pose proof (round_double_idempotent (base10 g)) as H3.
    pose proof (round_double_Infinity (base10 g)) as H4.
    fold overflow in H4.
    split; [split; [split |]; assumption |]. split; [exact H4 |].
    unfold natural. split.
    - intros [[_ Hlt] _].
      destruct (Z.le_gt_cases overflow (base10 g)) as [Hge | Hgt];
        [| lia].
      apply H4 in Hge. lia.
    - intros Hlt. split; [| exact H3]. split; [exact H1 |].
      destruct (Z.eq_dec (round_double (base10 g)) Infinity) as [E | E];
        [| lia].
      apply H4 in E. lia. }
  destruct (Hfield a Ha) as (Fa & Ia & Na).
  destruct (Hfield b Hb) as (Fb & Ib & Nb).
  destruct (Hfield c Hc) as (Fc & Ic & Nc).
  exists (match_array (a, b, c, r)), a, b, c.
  cbn [major minor patch].
  repeat (split; [first [reflexivity | apply Ha | apply Hb | apply Hc] |]).
  split.
  { intros f [<- | [<- | [<- | []]]]; assumption. }
  split; [exact Ia |]. split; [exact Ib |]. split; [exact Ic |].
  unfold valid. cbn [major minor patch]. rewrite Na, Nb, Nc. reflexivity.
Qed.

Lemma parseVersion_groups_present_witness :
  parseVersion (lit "cmake version 3.27.0-rc4") =
  Normal {| major := 3; minor := 27; patch := 0 |} /\
  valid {| major := 3; minor := 27; patch := 0 |}.
Proof.
  split; [reflexivity |].
  destruct (parseVersion_groups_present (lit "cmake version 3.27.0-rc4")
              {| major := 3; minor := 27; patch := 0 |} eq_refl)
    as (mat & a & b & c & Hexec & H1 & H2 & H3 & _ & _ & _ & _ & _ & _ &
        _ & _ & _ & _ & _ & Hvalid).
  apply Hvalid.
  assert (Hmat : mat = [Some (lit "3.27.0-rc4"); Some (lit "3");
                        Some (lit "27"); Some (lit "0"); Some (lit "-rc4")]).
  { vm_compute in Hexec. injection Hexec as <-. reflexivity. }
  rewrite Hmat in H1, H2, H3.
  injection H1 as <-. injection H2 as <-. injection H3 as <-.
  repeat split; reflexivity.
Defined.

(** C9 as stated fails on a group of 310 digits: it reads as [10 ^ 309],
    beyond every finite double, and the field is [Infinity], which is not an
    integer and prints as its name. *)
Lemma parseVersion_groups_present_fails :
  let s := lit "1" ++ repeat "0"%char 309 ++ lit ".0.0" in
  let v := {| major := Infinity; minor := 0; patch := 0 |} in
  parseVersion s = Normal v /\
  ~ valid v /\
  versionToString v = lit "Infinity.0.0".
Proof.
  cbv zeta. split; [vm_compute; reflexivity |].
  split; [| vm_compute; reflexivity].
  intros [[[_ H] _] _]. cbn [major] in H. lia.
Qed.

(** C10, as amended.  When the pattern occurs more than once, the fields
    come from the leftmost occurrence, its third run of digits taken as far
    as the digits go, each run read in base 10 and rounded to a double,
    which is the value read when it is at most [2 ^ 53]; the fourth group
    takes what follows up to the first line terminator, and no field depends
    on it. *)
Theorem parseVersion_leftmost :
  (forall s pre a b c post,
     occurrence s pre a b c post -> leftmost s pre ->
     parseVersion s =
       Normal {| major := round_double (base10 a);
                 minor := round_double (base10 b);
                 patch :=
                   round_double (base10 (c ++ take_while is_digit post)) |} /\
     (~ starts_with is_digit post ->
      parseVersion s =
        Normal {| major := round_double (base10 a);
                  minor := round_double (base10 b);
                  patch := round_double (base10 c) |}) /\
     (~ starts_with is_digit post ->
      base10 a <= 2 ^ 53 -> base10 b <= 2 ^ 53 -> base10 c <= 2 ^ 53 ->
      parseVersion s =
        Normal {| major := base10 a; minor := base10 b;
                  patch := base10 c |}) /\
     exists mat,
       exec version_re s = Some mat /\
       at_index mat 4 =
         Some (take_while not_line_terminator (drop_while is_digit post))) /\
  parseVersion (lit "1.2.3 then 9.9.9") =
  Normal {| major := 1; minor := 2; patch := 3 |}.
Proof.
  split; [| reflexivity].
  intros s pre a b c post Hocc Hleft.
  pose proof (find_version_leftmost _ _ _ _ _ _ Hocc Hleft) as Hf.
  rewrite parseVersion_find, exec_version, Hf.
  split; [reflexivity |]. split; [| split].
  - intros Hpost. destruct (take_while_stop is_digit post Hpost) as [-> _].
    rewrite app_nil_r. reflexivity.
  - intros Hpost Ga Gb Gc.
    destruct (take_while_stop is_digit post Hpost) as [-> _].
    rewrite app_nil_r, !round_double_small by assumption. reflexivity.
  - eexists. split; reflexivity.
Qed.

Lemma parseVersion_leftmost_witness :
  occurrence (lit "v1.2.34 then 9.9.9")
    (lit "v") (lit "1") (lit "2") (lit "3") (lit "4 then 9.9.9") /\
  leftmost (lit "v1.2.34 then 9.9.9") (lit "v") /\
  parseVersion (lit "v1.2.34 then 9.9.9") =
  Normal {| major := 1; minor := 2; patch := 34 |}.
Proof.
  assert (Hocc : occurrence (lit "v1.2.34 then 9.9.9")
            (lit "v") (lit "1") (lit "2") (lit "3") (lit "4 then 9.9.9")).
  { repeat split; discriminate. }
  assert (Hleft : leftmost (lit "v1.2.34 then 9.9.9") (lit "v")).
  { intros pre' a b c post H. destruct pre' as [|ch pre']; [| simpl; lia].
    apply occurrence_at in H. vm_compute in H. discriminate. }
  split; [exact Hocc |]. split; [exact Hleft |].
  exact (proj1 (proj1 parseVersion_leftmost _ _ _ _ _ _ Hocc Hleft)).
Defined.

(** C10 as stated fails in its reason and in its components.  The trailing
    group stops at a line terminator: in [1.2.3], a line feed, [9.9.9] it is
    empty, the match is [1.2.3] alone and the second line is not consumed.
    And the components of the leftmost occurrence are rounded: the group
    [9007199254740993] is returned as [2 ^ 53]. *)
Lemma parseVersion_leftmost_fails :
  let s := lit "1.2.3" ++ ["010"%char] ++ lit "9.9.9" in
  let t := lit "9007199254740993.0.0 then 9.9.9" in
  exec version_re s =
    Some [Some (lit "1.2.3"); Some (lit "1"); Some (lit "2");
          Some (lit "3"); Some []] /\
  parseVersion s = Normal {| major := 1; minor := 2; patch := 3 |} /\
  occurrence t [] (lit "9007199254740993") (lit "0") (lit "0")
    (lit " then 9.9.9") /\
  leftmost t [] /\
  parseVersion t = Normal {| major := 2 ^ 53; minor := 0; patch := 0 |} /\
  parseVersion t <>
    Normal {| major := base10 (lit "9007199254740993");
              minor := base10 (lit "0"); patch := base10 (lit "0") |}.
Proof.
  cbv zeta.
  split; [vm_compute; reflexivity |].
  split; [vm_compute; reflexivity |].
  split; [repeat split; discriminate |].
  split; [intros pre' a b c post _; simpl; lia |].
  split; [vm_compute; reflexivity |].
  vm_compute. discriminate.
Qed.

(** * Further properties of [util.ts] *)

(** ** Search and replace *)

Section SearchReplace.

Lemma strip_prefix_app (p t : jsstring) : strip_prefix p (p ++ t) = Some t.
Proof.
  induction p as [|a p IH]; simpl; [reflexivity |].
  rewrite Ascii.eqb_refl. exact IH.
Qed.

Lemma strip_prefix_Some (p s t : jsstring) :
  strip_prefix p s = Some t -> s = p ++ t.
Proof.
  revert s. induction p as [|a p IH]; intros s H; simpl in H.
  - injection H as ->. reflexivity.
  - destruct s as [|b s]; [discriminate |].
    destruct (Ascii.eqb_spec a b) as [<- | _]; [| discriminate].
    simpl. f_equal. apply IH, H.
Qed.

Lemma strip_prefix_None (p s : jsstring) :
  strip_prefix p s = None -> forall t, s <> p ++ t.
Proof.
  intros H t ->. rewrite strip_prefix_app in H. discriminate.
Qed.

Lemma at_index_whole (v : jsstring) (caps : list (option jsstring)) :
  nullish (at_index (set_capture 0 v caps) 0) [] =
  match caps with [] => [] | _ :: _ => v end.
Proof. destruct caps; reflexivity. Qed.

(** What [match_at] reports as the whole match is a prefix of what was
    left of the input. *)
Lemma match_at_whole (size : nat) (ts : list Term) (s : jsstring)
  (arr : list (option jsstring)) :
  match_at size ts s = Some arr ->
  exists k, nullish (at_index arr 0) [] = firstn k s.
Proof.
  unfold match_at. set (x := mkState s _).
  destruct (compile_terms size ts x (fun y => Some y)) as [y |];
    [| discriminate].
  intros H. injection H as <-.
  destruct (captures y); [exists 0%nat; reflexivity |].
  eexists. reflexivity.
Qed.

Lemma search_skipped (size : nat) (ts : list Term) :
  forall s skipped arr,
    search size ts s = Some (skipped, arr) ->
    firstn (length skipped) s = skipped /\
    (length skipped <= length s)%nat /\
    match_at size ts (skipn (length skipped) s) = Some arr.
Proof.
  induction s as [|c t IH]; intros skipped arr H; cbn [search] in H.
  - destruct (match_at size ts []) eqn:Hm; [| discriminate].
    injection H as <- <-. repeat split; [simpl; lia | exact Hm].
  - destruct (match_at size ts (c :: t)) eqn:Hm.
    + injection H as <- <-. repeat split; [simpl; lia | exact Hm].
    + destruct (search size ts t) as [[sk a] |] eqn:Hs; [| discriminate].
      injection H as <- <-. destruct (IH _ _ eq_refl) as (H1 & H2 & H3).
      cbn [length firstn skipn]. rewrite H1.
      repeat split; [lia | exact H3].
Qed.

(** After a match that is not empty, less of the input is left. *)
Lemma search_progress (size : nat) (ts : list Term) (s skipped : jsstring)
  (arr : list (option jsstring)) :
  search size ts s = Some (skipped, arr) ->
  nullish (at_index arr 0) [] <> [] ->
  (length (skipn (length (nullish (at_index arr 0) []))
             (skipn (length skipped) s)) < length s)%nat.
Proof.
  intros H Hne. destruct (search_skipped _ _ _ _ _ H) as (_ & Hlen & Hm).
  destruct (match_at_whole _ _ _ _ Hm) as [k Hk].
  rewrite Hk in *. rewrite !length_skipn.
  assert (0 < length (firstn k (skipn (length skipped) s)))%nat
    by (destruct (firstn k (skipn (length skipped) s));
        [congruence | simpl; lia]).
  pose proof (length_firstn k (skipn (length skipped) s)) as Hf.
  rewrite length_skipn in Hf. lia.
Qed.

Lemma replace_loop_S (fuel size : nat) (ts : list Term)
  (template before s : jsstring) :
  replace_loop (S fuel) size ts template before s =
  match search size ts s with
  | None => s
  | Some (skipped, arr) =>
      let matched := nullish (at_index arr 0) [] in
      let position := before ++ skipped in
      let after := skipn (length matched) (skipn (length skipped) s) in
      let replacement :=
        GetSubstitution arr matched position after template in
      skipped ++ replacement ++
      match matched, after with
      | [], [] => []
      | [], c :: t =>
          c :: replace_loop fuel size ts template (position ++ [c]) t
      | _ :: _, _ =>
          replace_loop fuel size ts template (position ++ matched) after
      end
  end.
Proof. reflexivity. Qed.

Lemma search_cons_None (size : nat) (ts : list Term) (c : ascii)
  (t : jsstring) :
  match_at size ts (c :: t) = None ->
  search size ts (c :: t) =
  match search size ts t with
  | Some (skipped, arr) => Some (c :: skipped, arr)
  | None => None
  end.
Proof. intros H. cbn [search]. rewrite H. reflexivity. Qed.

(** Fuel beyond the length of the input changes nothing. *)
Lemma replace_loop_fuel (size : nat) (ts : list Term) (template : jsstring) :
  forall f1 f2 before s,
    (length s < f1)%nat -> (length s < f2)%nat ->
    replace_loop f1 size ts template before s =
    replace_loop f2 size ts template before s.
Proof.
  induction f1 as [|f1 IH]; intros f2 before s H1 H2; [lia |].
  destruct f2 as [|f2]; [lia |]. cbn [replace_loop].
  destruct (search size ts s) as [[skipped arr] |] eqn:Hs; [| reflexivity].
  destruct (search_skipped _ _ _ _ _ Hs) as (_ & Hlen & _).
  pose proof (search_progress _ _ _ _ _ Hs) as Hprog.
  cbv zeta. f_equal. f_equal.
  destruct (nullish (at_index arr 0) []) as [|m0 m] eqn:Hm.
  - simpl skipn at 1. simpl skipn at 2.
    destruct (skipn (length skipped) s) as [|c t] eqn:Hafter; [reflexivity |].
    f_equal. assert (length (c :: t) <= length s)%nat
      by (rewrite <- Hafter, length_skipn; lia).
    simpl in H. apply IH; lia.
  - assert (Hne : m0 :: m <> []) by discriminate.
    specialize (Hprog Hne). apply IH; lia.
Qed.

Lemma replace_loop_nil (fuel size : nat) (ts : list Term)
  (template before : jsstring) :
  match_at size ts [] = None ->
  replace_loop fuel size ts template before [] = [].
Proof.
  intros H. destruct fuel; [reflexivity |]. cbn [replace_loop search].
  rewrite H. reflexivity.
Qed.

(** Where the pattern does not match, the character is kept. *)
Lemma replace_loop_skip (fuel size : nat) (ts : list Term)
  (template before : jsstring) (c : ascii) (t : jsstring) :
  (length (c :: t) < fuel)%nat ->
  match_at size ts (c :: t) = None ->
  replace_loop fuel size ts template before (c :: t) =
  c :: replace_loop fuel size ts template (before ++ [c]) t.
Proof.
  intros Hlen Hm. destruct fuel as [|fuel]; [lia |]. simpl in Hlen.
  rewrite replace_loop_S, (search_cons_None _ _ _ _ Hm).
  rewrite (replace_loop_fuel size ts template (S fuel) (S (length t))
             (before ++ [c]) t) by lia.
  rewrite replace_loop_S.
  destruct (search size ts t) as [[skipped arr] |] eqn:Hs; [| reflexivity].
  pose proof (search_progress _ _ _ _ _ Hs) as Hprog.
  destruct (search_skipped _ _ _ _ _ Hs) as (_ & Hsk & _).
  cbv zeta. cbn [length skipn app]. f_equal. f_equal.
  rewrite <- !app_assoc. cbn [app]. f_equal.
  destruct (nullish (at_index arr 0) []) as [|m0 m] eqn:Hw.
  - simpl skipn at 1. simpl skipn at 2.
    destruct (skipn (length skipped) t) as [|c' t'] eqn:Hafter;
      [reflexivity |].
    f_equal. assert (length (c' :: t') <= length t)%nat
      by (rewrite <- Hafter, length_skipn; lia).
    simpl in H. apply replace_loop_fuel; lia.
  - assert (Hne : m0 :: m <> []) by discriminate.
    specialize (Hprog Hne). apply replace_loop_fuel; lia.
Qed.

(** Where the pattern matches, the replacement text takes the place of a
    match that is not empty, and the loop goes on behind it. *)
Lemma replace_loop_match (fuel size : nat) (ts : list Term)
  (template before m after : jsstring) (arr : list (option jsstring)) :
  (length (m ++ after) < fuel)%nat ->
  match_at size ts (m ++ after) = Some arr ->
  nullish (at_index arr 0) [] = m -> m <> [] ->
  replace_loop fuel size ts template before (m ++ after) =
  GetSubstitution arr m before after template ++
  replace_loop fuel size ts template (before ++ m) after.
Proof.
  intros Hlen Hm Hw Hne. destruct fuel as [|fuel]; [lia |].
  rewrite replace_loop_S.
  assert (Hs : search size ts (m ++ after) = Some ([], arr)).
  { destruct (m ++ after); cbn [search]; rewrite Hm; reflexivity. }
  rewrite Hs. cbv zeta. rewrite Hw. cbn [length skipn app].
  rewrite app_nil_r, skipn_app, Nat.sub_diag, skipn_all. cbn [skipn app].
  f_equal. destruct m as [|m0 m]; [congruence |].
  apply replace_loop_fuel; rewrite length_app in Hlen; simpl in *; lia.
Qed.

(** An empty match puts the replacement text in front of the next
    character, which is kept. *)
Lemma replace_loop_empty (fuel size : nat) (ts : list Term)
  (template before s : jsstring) (arr : list (option jsstring)) :
  (length s < fuel)%nat ->
  match_at size ts s = Some arr ->
  nullish (at_index arr 0) [] = [] ->
  replace_loop fuel size ts template before s =
  GetSubstitution arr [] before s template ++
  match s with
  | [] => []
  | c :: t => c :: replace_loop fuel size ts template (before ++ [c]) t
  end.
Proof.
  intros Hlen Hm Hw. destruct fuel as [|fuel]; [lia |].
  rewrite replace_loop_S.
  assert (Hs : search size ts s = Some ([], arr)).
  { destruct s; cbn [search]; rewrite Hm; reflexivity. }
  rewrite Hs. cbv zeta. rewrite Hw. cbn [length skipn app].
  rewrite app_nil_r. f_equal. destruct s as [|c t]; [reflexivity |].
  f_equal. simpl in Hlen. apply replace_loop_fuel; lia.
Qed.

Lemma GetSubstitution_plain (arr : list (option jsstring))
  (matched before after template : jsstring) :
  forallb (fun c => negb (Ascii.eqb c "$")) template = true ->
  GetSubstitution arr matched before after template = template.
Proof.
  induction template as [|c t IH]; intros H; [reflexivity |].
  cbn [forallb] in H. apply andb_true_iff in H as [Hc Ht].
  cbn [GetSubstitution]. rewrite Hc. f_equal. apply IH, Ht.
Qed.

End SearchReplace.

(** ** [escapeStringForRegex] *)

Section Escape.

Lemma match_at_class (p : ascii -> bool) (size : nat) (s : jsstring) :
  match_at size [Atom (Group 1 (CharSet p))] s =
  match s with
  | c :: t => if p c then Some [Some [c]; Some [c]] else None
  | [] => None
  end.
Proof.
  unfold match_at. cbn [compile_terms compile flat_map term_groups groups
    app length repeat rest captures].
  destruct s as [|c t]; [reflexivity |].
  destruct (p c); [| reflexivity].
  cbn [rest captures set_capture].
  rewrite !(consumed_app [c] t). reflexivity.
Qed.

Lemma escape_reference (c : ascii) (before after : jsstring) :
  GetSubstitution [Some [c]; Some [c]] [c] before after (lit "\$1") =
  ["\"%char; c].
Proof. reflexivity. Qed.

Lemma escape_loop (s : jsstring) :
  forall fuel size before, (length s < fuel)%nat ->
  replace_loop fuel size [Atom (Group 1 (CharSet needs_escape))]
    (lit "\$1") before s =
  flat_map (fun c => if needs_escape c then ["\"%char; c] else [c]) s.
Proof.
  induction s as [|c t IH]; intros fuel size before Hlen.
  - apply replace_loop_nil. apply match_at_class.
  - cbn [flat_map]. destruct (needs_escape c) eqn:Hc.
    + rewrite (replace_loop_match fuel size _ _ before [c] t
                 [Some [c]; Some [c]]);
        [| exact Hlen | rewrite match_at_class; cbn [app]; rewrite Hc; reflexivity
         | reflexivity | discriminate].
      rewrite escape_reference, IH by (simpl in Hlen; lia). reflexivity.
    + rewrite replace_loop_skip;
        [| exact Hlen | rewrite match_at_class, Hc; reflexivity].
      rewrite IH by (simpl in Hlen; lia). reflexivity.
Qed.

Lemma class_facts (c : ascii) :
  (is_syntax_character c = true -> needs_escape c = true) /\
  (needs_escape c = true -> is_identity_escape c = true) /\
  (needs_escape c = false -> Ascii.eqb c "\" = false).
Proof.
  destruct c as [[] [] [] [] [] [] [] []]; vm_compute;
    repeat split; intros; congruence.
Qed.

End Escape.

(** X1. [escapeStringForRegex] puts a backslash in front of each of the
    characters of its class and leaves every other character as it is. *)
Theorem escapeStringForRegex_chars (str : jsstring) :
  escapeStringForRegex str =
  flat_map (fun c => if needs_escape c then ["\"%char; c] else [c]) str.
Proof.
  unfold escapeStringForRegex, replace_global. apply escape_loop. lia.
Qed.

Section Literal.

Lemma compile_literal (size : nat) (needle : jsstring) :
  forall s caps c,
    compile_terms size (map literal needle) (mkState s caps) c =
    match strip_prefix needle s with
    | Some t => c (mkState t caps)
    | None => None
    end.
Proof.
  induction needle as [|a p IH]; intros s caps c; [reflexivity |].
  cbn [map literal compile_terms strip_prefix]. unfold char.
  rewrite compile_CharSet. destruct s as [|b t]; [reflexivity |].
  destruct (Ascii.eqb a b); [apply IH | reflexivity].
Qed.

Lemma literal_no_groups (needle : jsstring) :
  flat_map term_groups (map literal needle) = [].
Proof. induction needle; [reflexivity | exact IHneedle]. Qed.

(** The pattern of a literal needle matches exactly where the needle
    stands, and the match is the needle. *)
Lemma match_at_literal (size : nat) (needle s : jsstring) :
  match_at size (map literal needle) s =
  match strip_prefix needle s with
  | Some _ => Some [Some needle]
  | None => None
  end.
Proof.
  unfold match_at. rewrite literal_no_groups, compile_literal.
  destruct (strip_prefix needle s) as [t |] eqn:Hp; [| reflexivity].
  apply strip_prefix_Some in Hp. subst s.
  cbn [captures length repeat set_capture].
  rewrite consumed_app. reflexivity.
Qed.

Lemma RegExp_new_escaped (needle : jsstring) :
  RegExp_new (escapeStringForRegex needle) = Some (map literal needle).
Proof.
  rewrite escapeStringForRegex_chars.
  induction needle as [|c t IH]; [reflexivity |].
  cbn [flat_map map]. destruct (class_facts c) as (Hsyn & Hid & Hback).
  destruct (needs_escape c) eqn:Hc.
  - cbn [app RegExp_new]. rewrite Ascii.eqb_refl, (Hid eq_refl), IH.
    reflexivity.
  - cbn [app RegExp_new]. rewrite (Hback eq_refl).
    destruct (is_syntax_character c); [specialize (Hsyn eq_refl); congruence |].
    rewrite IH. reflexivity.
Qed.

Variables needle template w : jsstring.

Hypothesis Hw : forall before after,
  GetSubstitution [Some needle] needle before after template = w.

Let re := map literal needle.

(** With a literal needle, neither the length of the whole input nor what
    was passed before matters to what the loop returns. *)
Lemma literal_canon (n : nat) :
  forall s, (length s < n)%nat ->
  forall fuel size before, (length s < fuel)%nat ->
  replace_loop fuel size re template before s = replace_global re template s.
Proof.
  unfold replace_global.
  induction n as [|n IH]; intros s Hn fuel size before Hlen; [lia |].
  - pose proof (match_at_literal size needle s) as Hm1.
    pose proof (match_at_literal (length s) needle s) as Hm2.
    destruct (strip_prefix needle s) as [after |] eqn:Hp.
    + apply strip_prefix_Some in Hp. subst s.
      destruct needle as [|a p] eqn:Hneedle.
      * cbn [app] in *.
        rewrite (replace_loop_empty fuel size re template before after
                   [Some []]) by (assumption || reflexivity).
        rewrite (replace_loop_empty (S (length after)) (length after) re
                   template [] after [Some []])
          by (assumption || reflexivity || lia).
        rewrite !Hw. f_equal. destruct after as [|c t]; [reflexivity |].
        f_equal. simpl in Hn, Hlen.
        rewrite (IH t) by lia. symmetry. apply (IH t); simpl; lia.
      * rewrite (replace_loop_match fuel size re template before (a :: p)
                   after [Some (a :: p)])
          by (assumption || reflexivity || discriminate).
        rewrite (replace_loop_match _ _ re template [] (a :: p) after
                   [Some (a :: p)])
          by (assumption || reflexivity || discriminate || lia).
        rewrite !Hw. f_equal.
        rewrite length_app in Hn, Hlen. simpl in Hn, Hlen.
        rewrite (IH after) by lia. symmetry. apply (IH after).
        -- lia.
        -- rewrite length_app. simpl. lia.
    + destruct s as [|c t].
      * rewrite !replace_loop_nil by assumption. reflexivity.
      * rewrite !replace_loop_skip by (assumption || lia).
        f_equal. simpl in Hn, Hlen.
        rewrite (IH t) by lia. symmetry. apply (IH t); simpl; lia.
Qed.

Lemma literal_front (a : ascii) (p t : jsstring) :
  needle = a :: p ->
  replace_global re template (needle ++ t) =
  w ++ replace_global re template t.
Proof.
  intros Hneedle. unfold replace_global at 1.
  rewrite (replace_loop_match _ _ re template [] needle t [Some needle]);
    [| lia
     | unfold re; rewrite match_at_literal, strip_prefix_app; reflexivity
     | reflexivity | rewrite Hneedle; discriminate].
  rewrite Hw. f_equal. apply (literal_canon (S (length t))); [lia |].
  rewrite length_app. lia.
Qed.

Lemma literal_skip (c : ascii) (t : jsstring) :
  strip_prefix needle (c :: t) = None ->
  replace_global re template (c :: t) = c :: replace_global re template t.
Proof.
  intros Hp. unfold replace_global at 1.
  rewrite replace_loop_skip;
    [| lia | unfold re; rewrite match_at_literal, Hp; reflexivity].
  f_equal. apply (literal_canon (S (length t))); simpl; lia.
Qed.

Lemma literal_nil :
  needle <> [] -> replace_global re template [] = [].
Proof.
  intros Hne. unfold replace_global. apply replace_loop_nil.
  unfold re. rewrite match_at_literal.
  destruct needle; [congruence | reflexivity].
Qed.

Lemma literal_empty_needle (s : jsstring) :
  needle = [] ->
  replace_global re template s =
  w ++ match s with
       | [] => []
       | c :: t => c :: replace_global re template t
       end.
Proof.
  intros Hneedle. unfold replace_global at 1.
  rewrite (replace_loop_empty _ _ re template [] s [Some []]);
    [| lia | unfold re; rewrite match_at_literal, Hneedle; reflexivity
     | reflexivity].
  rewrite <- Hneedle at 1 2. rewrite Hw. f_equal.
  destruct s as [|c t]; [reflexivity |]. f_equal.
  apply (literal_canon (S (length t))); simpl; lia.
Qed.

End Literal.

(** ** [replaceAll] and its callers *)

Section ReplaceAll.

Lemma replaceAll_unfold (str needle what : jsstring) :
  replaceAll str needle what =
  Some (replace_global (map literal needle) what str).
Proof.
  unfold replaceAll. rewrite RegExp_new_escaped. reflexivity.
Qed.

Lemma plain_substitution (needle what : jsstring) :
  no_reference what ->
  forall before after,
    GetSubstitution [Some needle] needle before after what = what.
Proof.
  intros H before after. apply GetSubstitution_plain, H.
Qed.

Lemma match_substitution (needle : jsstring) :
  forall before after,
    GetSubstitution [Some needle] needle before after (lit "$&") = needle.
Proof.
  intros before after. cbn. apply app_nil_r.
Qed.

Lemma strip_prefix_absent (needle s : jsstring) :
  (forall t, s <> needle ++ t) -> strip_prefix needle s = None.
Proof.
  intros H. destruct (strip_prefix needle s) as [t |] eqn:Hp; [| reflexivity].
  apply strip_prefix_Some in Hp. exfalso. apply (H t Hp).
Qed.

Lemma search_absent (size : nat) (needle : jsstring) :
  forall s, ~ contains s needle ->
  search size (map literal needle) s = None.
Proof.
  induction s as [|c t IH]; intros Hno.
  - cbn [search]. rewrite match_at_literal, strip_prefix_absent; [reflexivity |].
    intros t Heq. apply Hno. exists [], t. exact Heq.
  - rewrite search_cons_None.
    + rewrite IH; [reflexivity |]. intros (pre & post & ->).
      apply Hno. exists (c :: pre), post. reflexivity.
    + rewrite match_at_literal, strip_prefix_absent; [reflexivity |].
      intros t' Heq. apply Hno. exists [], t'. exact Heq.
Qed.

End ReplaceAll.

(** X2. The pattern [replaceAll] builds from the escaped needle is
    accepted by the constructor and matches the needle character by
    character: it matches exactly where the needle stands in the input, and
    what it matches is the needle. *)
Theorem escaped_pattern_literal (needle : jsstring) :
  exists re,
    RegExp_new (escapeStringForRegex needle) = Some re /\
    forall size s,
      (forall t, s = needle ++ t ->
                 match_at size re s = Some [Some needle]) /\
      ((forall t, s <> needle ++ t) -> match_at size re s = None).
Proof.
  exists (map literal needle). split; [apply RegExp_new_escaped |].
  intros size s. rewrite match_at_literal. split.
  - intros t ->. rewrite strip_prefix_app. reflexivity.
  - intros H. rewrite strip_prefix_absent by exact H. reflexivity.
Qed.

(** X3. With a needle that is not empty and a replacement text without
    dollar signs, [replaceAll] replaces the occurrences of the needle from
    the left, without overlap: an occurrence at the front gives way to the
    replacement and the rest is treated behind it; a character where no
    occurrence starts is kept. *)
Theorem replaceAll_leftmost (needle what : jsstring) :
  needle <> [] -> no_reference what ->
  replaceAll [] needle what = Some [] /\
  (forall t,
     replaceAll (needle ++ t) needle what =
     option_map (app what) (replaceAll t needle what)) /\
  (forall c t,
     (forall t', c :: t <> needle ++ t') ->
     replaceAll (c :: t) needle what =
     option_map (cons c) (replaceAll t needle what)).
Proof.
  intros Hne Hplain. pose proof (plain_substitution needle what Hplain) as Hw.
  repeat split; intros; rewrite !replaceAll_unfold; cbn [option_map]; f_equal.
  - apply (literal_nil needle what what Hw Hne).
  - destruct needle as [|a p] eqn:Hneedle; [congruence |].
    apply (literal_front (a :: p) what what Hw a p). reflexivity.
  - apply (literal_skip needle what what Hw).
    apply strip_prefix_absent. assumption.
Qed.

Lemma replaceAll_leftmost_witness :
  lit ";" <> [] /\ no_reference (lit "\;") /\
  replaceAll (lit ";" ++ lit "a;b") (lit ";") (lit "\;") =
  option_map (app (lit "\;")) (replaceAll (lit "a;b") (lit ";") (lit "\;")).
Proof.
  assert (Hne : lit ";" <> []) by discriminate.
  assert (Hplain : no_reference (lit "\;")) by reflexivity.
  split; [exact Hne |]. split; [exact Hplain |].
  apply (replaceAll_leftmost (lit ";") (lit "\;") Hne Hplain).
Defined.

(** X4. When the needle does not occur in the string, [replaceAll]
    returns the string as it is, whatever the replacement text. *)
Theorem replaceAll_absent (str needle what : jsstring) :
  ~ contains str needle -> replaceAll str needle what = Some str.
Proof.
  intros Hno. rewrite replaceAll_unfold. f_equal.
  unfold replace_global. rewrite replace_loop_S.
  rewrite search_absent by exact Hno. reflexivity.
Qed.

Lemma replaceAll_absent_witness :
  ~ contains (lit "C:/src") (lit "//") /\
  replaceAll (lit "C:/src") (lit "//") (lit "/") = Some (lit "C:/src").
Proof.
  assert (H : ~ contains (lit "C:/src") (lit "//")).
  { intros (pre & post & Heq).
    repeat (destruct pre as [|? pre]; simpl in Heq;
            [discriminate | injection Heq as _ Heq]).
    destruct pre; discriminate. }
  split; [exact H |]. apply (replaceAll_absent _ _ _ H).
Defined.

(** X5. With the empty needle and a replacement text without dollar
    signs, [replaceAll] puts the replacement in front of every character
    and once more at the end. *)
Theorem replaceAll_empty_needle (str what : jsstring) :
  no_reference what ->
  replaceAll str [] what =
  Some (what ++ flat_map (fun c => c :: what) str).
Proof.
  intros Hplain. pose proof (plain_substitution [] what Hplain) as Hw.
  rewrite replaceAll_unfold. f_equal.
  induction str as [|c t IH].
  - rewrite (literal_empty_needle [] what what Hw) by reflexivity.
    reflexivity.
  - rewrite (literal_empty_needle [] what what Hw) by reflexivity.
    rewrite IH. reflexivity.
Qed.

Lemma replaceAll_empty_needle_witness :
  no_reference (lit "-") /\
  replaceAll (lit "ab") [] (lit "-") = Some (lit "-a-b-").
Proof.
  split; [reflexivity |].
  apply (replaceAll_empty_needle (lit "ab") (lit "-")). reflexivity.
Defined.

Section SubsequenceFacts.

Lemma subsequence_refl (s : jsstring) : subsequence s s.
Proof. induction s; constructor; assumption. Qed.

Lemma subsequence_trans (r s u : jsstring) :
  subsequence r s -> subsequence s u -> subsequence r u.
Proof.
  intros Hrs Hsu. revert r Hrs.
  induction Hsu as [| c s u Hsu IH | c s u Hsu IH]; intros r Hrs.
  - exact Hrs.
  - inversion Hrs; subst.
    + apply subsequence_keep, IH. assumption.
    + apply subsequence_drop, IH. assumption.
  - apply subsequence_drop, IH, Hrs.
Qed.

Lemma subsequence_length (r s : jsstring) :
  subsequence r s -> (length r <= length s)%nat.
Proof. induction 1; simpl; lia. Qed.

Lemma subsequence_skip (l r s : jsstring) :
  subsequence r s -> subsequence r (l ++ s).
Proof.
  intros H. induction l as [|x l IH]; [exact H |].
  cbn [app]. apply subsequence_drop, IH.
Qed.

End SubsequenceFacts.

Section References.

Variable needle : jsstring.
Hypothesis needle_not_empty : needle <> [].

Lemma replace_by_match (n : nat) :
  forall s, (length s < n)%nat ->
  replace_global (map literal needle) (lit "$&") s = s.
Proof.
  pose proof (match_substitution needle) as Hw.
  induction n as [|n IH]; intros s Hn; [lia |].
  destruct (strip_prefix needle s) as [after |] eqn:Hp.
  - apply strip_prefix_Some in Hp. subst s.
    destruct needle as [|a p] eqn:Hneedle; [congruence |].
    rewrite (literal_front (a :: p) _ _ Hw a p after eq_refl).
    rewrite IH; [reflexivity |].
    rewrite length_app in Hn. simpl in Hn. lia.
  - destruct s as [|c t].
    + apply (literal_nil needle _ _ Hw needle_not_empty).
    + rewrite (literal_skip needle _ _ Hw c t Hp).
      rewrite IH; [reflexivity | simpl in Hn; lia].
Qed.

Lemma removal_subsequence (n : nat) :
  forall s, (length s < n)%nat ->
  subsequence (replace_global (map literal needle) [] s) s.
Proof.
  assert (Hw : forall before after,
            GetSubstitution [Some needle] needle before after [] = [])
    by reflexivity.
  induction n as [|n IH]; intros s Hn; [lia |].
  destruct (strip_prefix needle s) as [after |] eqn:Hp.
  - apply strip_prefix_Some in Hp. subst s.
    destruct needle as [|a p] eqn:Hneedle; [congruence |].
    rewrite (literal_front (a :: p) _ _ Hw a p after eq_refl).
    rewrite length_app in Hn. simpl in Hn. rewrite app_nil_l.
    apply (subsequence_skip (a :: p)), IH. lia.
  - destruct s as [|c t].
    + rewrite (literal_nil needle _ _ Hw needle_not_empty). constructor.
    + rewrite (literal_skip needle _ _ Hw c t Hp).
      apply subsequence_keep, IH. simpl in Hn. lia.
Qed.

End References.

Section Subsequence.

Lemma removal_defined (s needle : jsstring) :
  exists r, replaceAll s needle [] = Some r /\ subsequence r s.
Proof.
  destruct needle as [|a p].
  - rewrite (replaceAll_empty_needle s [] eq_refl). eexists.
    split; [reflexivity |]. cbn [app].
    assert (Hid : forall l : jsstring, flat_map (fun c => [c]) l = l)
      by (induction l as [|? ? IHl]; [| cbn [flat_map app]; rewrite IHl];
          reflexivity).
    rewrite Hid. apply subsequence_refl.
  - rewrite replaceAll_unfold. eexists. split; [reflexivity |].
    apply (removal_subsequence (a :: p) ltac:(discriminate) (S (length s))).
    lia.
Qed.

End Subsequence.

(** X6. The replacement text is read as a pattern, not as plain text: with
    a needle that is not empty, the replacement [$&] puts every occurrence
    back, so the string comes out unchanged. *)
Theorem replaceAll_match_reference (str needle : jsstring) :
  needle <> [] -> replaceAll str needle (lit "$&") = Some str.
Proof.
  intros Hne. rewrite replaceAll_unfold. f_equal.
  apply (replace_by_match needle Hne (S (length str))). lia.
Qed.

Lemma replaceAll_match_reference_witness :
  lit "ab" <> [] /\
  replaceAll (lit "xabyab") (lit "ab") (lit "$&") = Some (lit "xabyab").
Proof.
  assert (H : lit "ab" <> []) by discriminate.
  split; [exact H |]. apply (replaceAll_match_reference _ _ H).
Defined.

(** X7. [removeAllPatterns] always returns, and what it returns is the
    string with some characters left out: nothing is added and nothing
    changes place. *)
Theorem removeAllPatterns_subsequence (patterns : list jsstring) :
  forall str,
  exists r, removeAllPatterns str patterns = Some r /\
            subsequence r str /\ (length r <= length str)%nat.
Proof.
  unfold removeAllPatterns.
  induction patterns as [|needle ps IH]; intros str.
  - exists str. split; [reflexivity |].
    split; [apply subsequence_refl | lia].
  - cbn [fold_left].
    destruct (removal_defined str needle) as (r1 & Hr1 & Hsub1).
    rewrite Hr1. destruct (IH r1) as (r & Hr & Hsub & _).
    exists r. split; [exact Hr |].
    assert (Hs : subsequence r str)
      by (apply (subsequence_trans _ _ _ Hsub Hsub1)).
    split; [exact Hs | apply subsequence_length, Hs].
Qed.

Section CMakeify.

Let escape_semicolons (s : jsstring) : jsstring :=
  flat_map (fun c => if Ascii.eqb c ";" then lit "\;" else [c]) s.

Lemma escape_semicolons_spec (s : jsstring) :
  replace_global (map literal (lit ";")) (lit "\;") s = escape_semicolons s.
Proof.
  pose proof (plain_substitution (lit ";") (lit "\;") eq_refl) as Hw.
  induction s as [|c t IH].
  - apply (literal_nil _ _ _ Hw). discriminate.
  - cbn [escape_semicolons flat_map]. fold (escape_semicolons t).
    destruct (Ascii.eqb_spec c ";") as [-> | Hc].
    + change (";"%char :: t) with (lit ";" ++ t).
      rewrite (literal_front _ _ _ Hw ";"%char [] t eq_refl), IH.
      reflexivity.
    + rewrite (literal_skip _ _ _ Hw), IH; [reflexivity |].
      cbn [lit list_ascii_of_string strip_prefix].
      destruct (Ascii.eqb_spec ";" c); [congruence | reflexivity].
Qed.

Lemma escape_semicolons_head (t r : jsstring) :
  escape_semicolons t <> ";"%char :: r.
Proof.
  destruct t as [|c t]; [discriminate |].
  cbn [escape_semicolons flat_map].
  destruct (Ascii.eqb_spec c ";") as [-> | Hc]; [discriminate |].
  cbn [app]. congruence.
Qed.

Lemma unescape_semicolons (s : jsstring) :
  replace_global (map literal (lit "\;")) (lit ";") (escape_semicolons s) = s.
Proof.
  pose proof (plain_substitution (lit "\;") (lit ";") eq_refl) as Hw.
  induction s as [|c t IH].
  - apply (literal_nil _ _ _ Hw). discriminate.
  - cbn [escape_semicolons flat_map]. fold (escape_semicolons t).
    destruct (Ascii.eqb_spec c ";") as [-> | Hc].
    + change (lit "\;" ++ escape_semicolons t)
        with (lit "\;" ++ escape_semicolons t).
      rewrite (literal_front _ _ _ Hw "\"%char [";"%char] _ eq_refl), IH.
      reflexivity.
    + cbn [app]. rewrite (literal_skip _ _ _ Hw), IH; [reflexivity |].
      cbn [lit list_ascii_of_string strip_prefix].
      destruct (Ascii.eqb "\" c); [| reflexivity].
      pose proof (escape_semicolons_head t) as Hhead.
      destruct (escape_semicolons t) as [|d r]; [reflexivity |].
      destruct (Ascii.eqb_spec ";" d) as [<- | _]; [| reflexivity].
      exfalso. apply (Hhead r). reflexivity.
Qed.

(** X8. On a string [cmakeify] gives a [STRING] value in which every
    semicolon of the string has a backslash put in front and nothing else
    is changed; turning [\;] back into [;] with [replaceAll] gives the
    string again. *)
Theorem cmakeify_string (s : jsstring) :
  exists escaped,
    cmakeify (InString s) = Some {| type := STRING; value := escaped |} /\
    escaped =
      flat_map (fun c => if Ascii.eqb c ";" then lit "\;" else [c]) s /\
    replaceAll escaped (lit "\;") (lit ";") = Some s.
Proof.
  exists (escape_semicolons s). cbn [cmakeify].
  rewrite !replaceAll_unfold, escape_semicolons_spec, unescape_semicolons.
  repeat split.
Qed.

End CMakeify.

(** ** [parseCompileDefinition] *)

Section CompileDefinition.

Let not_equals (c : ascii) : bool := negb (Ascii.eqb "=" c).

Lemma end_rejects (size : nat) (k : Continuation) (y : MatchState) :
  starts_with is_word (rest y) -> compile_terms size [AssertEnd] y k = None.
Proof.
  cbn [compile_terms]. destruct (rest y); [contradiction | reflexivity].
Qed.

(** At the start of the input the pattern matches when the input is one
    run of word characters. *)
Lemma match_at_word_start (s : jsstring) :
  match_at (length s) word_re s =
  match s with
  | c :: t =>
      if is_word c
      then match drop_while is_word t with
           | [] => Some [Some s]
           | _ :: _ => None
           end
      else None
  | [] => None
  end.
Proof.
  unfold match_at, word_re.
  cbn [flat_map term_groups groups plus app length repeat compile_terms rest].
  rewrite Nat.eqb_refl. fold (plus (CharSet is_word)). rewrite plus_unfold.
  destruct s as [|c t]; [reflexivity |].
  destruct (is_word c); [| reflexivity].
  rewrite star_reject;
    [| intros y Hy; exact (end_rejects (length (c :: t)) _ y Hy) | lia].
  cbn [compile_terms rest].
  pose proof (take_drop is_word t) as Ht.
  destruct (drop_while is_word t) as [|d r]; [| reflexivity].
  cbn [captures set_capture]. rewrite app_nil_r in Ht.
  pose proof (consumed_app (c :: t) [] [None] [None]) as Hc.
  rewrite app_nil_r in Hc. rewrite Hc. reflexivity.
Qed.

(** Further in, [^] fails. *)
Lemma search_word_inside (size : nat) :
  forall t, (length t < size)%nat -> search size word_re t = None.
Proof.
  assert (Hm : forall t, (length t < size)%nat ->
                         match_at size word_re t = None).
  { intros t Ht. unfold match_at, word_re. cbn [compile_terms rest].
    assert (Hneq : Nat.eqb (length t) size = false)
      by (apply Nat.eqb_neq; lia).
    rewrite Hneq. reflexivity. }
  induction t as [|c t IH]; intros Ht.
  - cbn [search]. rewrite Hm by exact Ht. reflexivity.
  - rewrite search_cons_None by (apply Hm, Ht).
    rewrite IH by (simpl in Ht; lia). reflexivity.
Qed.

Lemma drop_while_nil_forallb (p : ascii -> bool) (t : jsstring) :
  drop_while p t = [] <-> forallb p t = true.
Proof.
  induction t as [|c t IH]; simpl; [tauto |].
  destruct (p c); simpl; [exact IH |]. split; discriminate.
Qed.

Lemma test_word (s : jsstring) :
  test word_re s = true <-> s <> [] /\ forallb is_word s = true.
Proof.
  unfold test. destruct s as [|c t].
  - cbn [search]. rewrite match_at_word_start. split; [discriminate |].
    intros [H _]. congruence.
  - cbn [search]. rewrite match_at_word_start.
    rewrite (search_word_inside (length (c :: t)) t) by (simpl; lia).
    cbn [forallb]. destruct (is_word c); cbn [andb].
    + pose proof (drop_while_nil_forallb is_word t) as Hd.
      destruct (drop_while is_word t) as [|d r].
      * split; [intros _; split; [discriminate | apply Hd; reflexivity]
               | reflexivity].
      * split; [discriminate |]. intros [_ H]. apply Hd in H. discriminate.
    + split; [discriminate |]. intros [_ H]. discriminate.
Qed.

Lemma split_equals (fuel : nat) :
  forall piece s, (length s < fuel)%nat ->
  split_loop fuel (lit "=") 1 piece s = [piece ++ take_while not_equals s].
Proof.
  induction fuel as [|fuel IH]; intros piece s Hlen; [lia |].
  destruct s as [|c t]; cbn [split_loop take_while].
  - rewrite app_nil_r. reflexivity.
  - cbn [lit list_ascii_of_string strip_prefix]. unfold not_equals at 1.
    destruct (Ascii.eqb "=" c); cbn [negb].
    + rewrite app_nil_r. reflexivity.
    + rewrite IH by (simpl in Hlen; lia). rewrite <- app_assoc. reflexivity.
Qed.

(** The key is what stands before the first [=]. *)
Lemma key_of (s : jsstring) :
  nth 0 (split s (lit "=") 1) [] = take_while not_equals s.
Proof.
  unfold split. destruct s as [|c t]; [reflexivity |].
  rewrite split_equals by lia. reflexivity.
Qed.

Lemma take_while_key (key rest : jsstring) :
  forallb not_equals key = true ->
  take_while not_equals (key ++ "="%char :: rest) = key.
Proof.
  intros Hkey. rewrite take_while_app by exact Hkey.
  cbn [take_while]. unfold not_equals at 1. rewrite Ascii.eqb_refl.
  apply app_nil_r.
Qed.

Lemma not_word_equals : is_word "=" = false.
Proof. reflexivity. Qed.

(** X9. [parseCompileDefinition] returns the string itself with the value
    [null] exactly when the string is one or more word characters; in every
    other case the value is a string. *)
Theorem parseCompileDefinition_word (str : jsstring) :
  (parseCompileDefinition str = (str, None) <->
   str <> [] /\ forallb is_word str = true) /\
  (snd (parseCompileDefinition str) = None <->
   str <> [] /\ forallb is_word str = true).
Proof.
  unfold parseCompileDefinition. pose proof (test_word str) as Ht.
  destruct (test word_re str).
  - split; (split; [intros _; apply Ht; reflexivity | reflexivity]).
  - split; (split; [discriminate |]); intros H; apply Ht in H; discriminate.
Qed.

(** X10. A definition [key=value] whose key holds no [=] is taken apart
    into that key and that value, whatever the value holds. *)
Theorem parseCompileDefinition_key_value (key value : jsstring) :
  forallb (fun c => negb (Ascii.eqb "=" c)) key = true ->
  parseCompileDefinition (key ++ lit "=" ++ value) = (key, Some value).
Proof.
  intros Hkey. unfold parseCompileDefinition.
  assert (Hnot : test word_re (key ++ lit "=" ++ value) = false).
  { destruct (test word_re (key ++ lit "=" ++ value)) eqn:Ht;
      [| reflexivity].
    apply test_word in Ht as [_ Hall].
    rewrite forallb_app in Hall. apply andb_true_iff in Hall as [_ Hall].
    cbn in Hall. discriminate. }
  rewrite Hnot, key_of.
  change (key ++ lit "=" ++ value) with (key ++ "="%char :: value).
  rewrite (take_while_key key value Hkey). f_equal. f_equal.
  unfold substr_from. rewrite skipn_app.
  replace (length key + 1 - length key)%nat with 1%nat by lia.
  rewrite skipn_all2 by lia. reflexivity.
Qed.

Lemma parseCompileDefinition_key_value_witness :
  forallb (fun c => negb (Ascii.eqb "=" c)) (lit "FOO") = true /\
  parseCompileDefinition (lit "FOO" ++ lit "=" ++ lit "bar=baz") =
  (lit "FOO", Some (lit "bar=baz")).
Proof.
  split; [reflexivity |].
  apply (parseCompileDefinition_key_value (lit "FOO") (lit "bar=baz")).
  reflexivity.
Defined.

(** X11. A string without [=] that is not one or more word characters,
    the empty string among them, comes back whole as the key with the empty
    string as its value, not [null]. *)
Theorem parseCompileDefinition_no_equals (str : jsstring) :
  forallb (fun c => negb (Ascii.eqb "=" c)) str = true ->
  (str = [] \/ forallb is_word str = false) ->
  parseCompileDefinition str = (str, Some []).
Proof.
  intros Hno Hnot. unfold parseCompileDefinition.
  assert (Htest : test word_re str = false).
  { destruct (test word_re str) eqn:Ht; [| reflexivity].
    apply test_word in Ht as [Hne Hall].
    destruct Hnot as [-> | Hnot]; congruence. }
  rewrite Htest, key_of.
  assert (Hkey : take_while not_equals str = str).
  { pose proof (take_drop not_equals str) as Htd.
    apply drop_while_nil_forallb in Hno. fold not_equals in Hno.
    rewrite Hno, app_nil_r in Htd. exact Htd. }
  rewrite Hkey. f_equal. f_equal.
  unfold substr_from. apply skipn_all2. lia.
Qed.

Lemma parseCompileDefinition_no_equals_witness :
  forallb (fun c => negb (Ascii.eqb "=" c)) (lit "a-b") = true /\
  (lit "a-b" = [] \/ forallb is_word (lit "a-b") = false) /\
  parseCompileDefinition (lit "a-b") = (lit "a-b", Some []).
Proof.
  split; [reflexivity |]. split; [right; reflexivity |].
  apply (parseCompileDefinition_no_equals (lit "a-b"));
    [reflexivity | right; reflexivity].
Defined.

End CompileDefinition.

(** ** [product] *)

Section Product.

Context {T : Type}.

Variable spread : T -> option (list T).

Let step (acc : list (list T)) (curr : list T) : list (list T) :=
  fold_left (fun a b => a ++ b)
    (map (fun prev => map (fun item => Array_concat spread prev item) curr)
       acc) [].

Lemma fold_concat (l : list (list (list T))) :
  forall acc, fold_left (fun a b => a ++ b) l acc = acc ++ concat l.
Proof.
  induction l as [|x l IH]; intros acc; cbn [fold_left concat].
  - symmetry. apply app_nil_r.
  - rewrite IH, app_assoc. reflexivity.
Qed.

Lemma step_flat_map (acc : list (list T)) (curr : list T) :
  step acc curr =
  flat_map (fun prev => map (fun item => Array_concat spread prev item) curr)
    acc.
Proof.
  unfold step. rewrite fold_concat, flat_map_concat_map. reflexivity.
Qed.

Lemma in_step (acc : list (list T)) (curr : list T) (l : list T) :
  In l (step acc curr) <->
  exists prev item, In prev acc /\ In item curr /\
                    l = prev ++ concat_operand spread item.
Proof.
  rewrite step_flat_map, in_flat_map. split.
  - intros (prev & Hprev & Hl). apply in_map_iff in Hl as (item & <- & Hi).
    exists prev, item. auto.
  - intros (prev & item & Hprev & Hi & ->). exists prev. split; [exact Hprev |].
    apply in_map_iff. exists item. auto.
Qed.

Lemma length_step (acc : list (list T)) (curr : list T) :
  length (step acc curr) = (length acc * length curr)%nat.
Proof.
  rewrite step_flat_map. induction acc as [|prev acc IH]; [reflexivity |].
  cbn [flat_map]. rewrite length_app, length_map, IH. simpl. lia.
Qed.

Lemma in_fold_step (arrays : list (list T)) :
  forall acc l,
    In l (fold_left step arrays acc) <->
    exists p q, l = p ++ flat_map (concat_operand spread) q /\ In p acc /\
                Forall2 (fun x arr => In x arr) q arrays.
Proof.
  induction arrays as [|curr arrays IH]; intros acc l; cbn [fold_left].
  - split.
    + intros H. exists l, []. cbn [flat_map]. rewrite app_nil_r. auto.
    + intros (p & q & -> & Hp & Hq). inversion Hq. cbn [flat_map].
      rewrite app_nil_r. exact Hp.
  - rewrite IH. split.
    + intros (p & q & -> & Hp & Hq).
      apply in_step in Hp as (prev & item & Hprev & Hi & ->).
      exists prev, (item :: q). cbn [flat_map]. rewrite <- app_assoc. auto.
    + intros (p & q & -> & Hp & Hq).
      inversion Hq as [| x arr q' arrs Hx Hq']; subst.
      exists (p ++ concat_operand spread x), q'. cbn [flat_map].
      rewrite <- app_assoc.
      repeat split; [| exact Hq'].
      apply in_step. exists p, x. auto.
Qed.

Lemma length_fold_step (arrays : list (list T)) :
  forall acc,
    length (fold_left step arrays acc) =
    (length acc * fold_right Nat.mul 1 (map (@length T) arrays))%nat.
Proof.
  induction arrays as [|curr arrays IH]; intros acc;
    cbn [fold_left map fold_right].
  - lia.
  - rewrite IH, length_step. lia.
Qed.

Lemma flat_map_plain (arrays : list (list T)) (q : list T) :
  (forall arr x, In arr arrays -> In x arr -> spread x = None) ->
  Forall2 (fun x arr => In x arr) q arrays ->
  flat_map (concat_operand spread) q = q.
Proof.
  intros Hplain Hq. induction Hq as [| x arr q arrays Hx Hq IH];
    [reflexivity |].
  cbn [flat_map]. unfold concat_operand at 1.
  rewrite (Hplain arr x (or_introl eq_refl) Hx).
  cbn [app]. f_equal. apply IH.
  intros arr' y Harr. apply Hplain. right. exact Harr.
Qed.

(** X12. The lists of [product] are the ways to take one element from each
    array, in the order of the arrays, an element that is an array being
    spread into the list; when no element is an array they are exactly
    these choices. *)
Theorem product_membership (arrays : list (list T)) (l : list T) :
  (In l (product spread arrays) <->
   exists q, Forall2 (fun x arr => In x arr) q arrays /\
             l = flat_map (concat_operand spread) q) /\
  ((forall arr x, In arr arrays -> In x arr -> spread x = None) ->
   (In l (product spread arrays) <->
    Forall2 (fun x arr => In x arr) l arrays)).
Proof.
  assert (Hgen : In l (product spread arrays) <->
            exists q, Forall2 (fun x arr => In x arr) q arrays /\
                      l = flat_map (concat_operand spread) q).
  { unfold product. fold step. rewrite in_fold_step. split.
    - intros (p & q & -> & [<- | []] & Hq). exists q. auto.
    - intros (q & Hq & ->). exists [], q. simpl. auto. }
  split; [exact Hgen |].
  intros Hplain. rewrite Hgen. split.
  - intros (q & Hq & ->). rewrite (flat_map_plain arrays q Hplain Hq).
    exact Hq.
  - intros Hl. exists l. split; [exact Hl |]. symmetry.
    apply (flat_map_plain arrays l Hplain Hl).
Qed.

(** X13. [product] returns as many lists as the product of the lengths of
    the arrays: one empty list for no array at all, none as soon as one
    array is empty. *)
Theorem product_length (arrays : list (list T)) :
  length (product spread arrays) =
    fold_right Nat.mul 1%nat (map (@length T) arrays) /\
  (arrays = [] -> product spread arrays = [[]]) /\
  (In [] arrays -> product spread arrays = []).
Proof.
  assert (Hlen : length (product spread arrays) =
                 fold_right Nat.mul 1%nat (map (@length T) arrays)).
  { unfold product. fold step. rewrite length_fold_step. simpl. lia. }
  split; [exact Hlen |]. split; [intros ->; reflexivity |].
  intros Hin. apply length_zero_iff_nil. rewrite Hlen.
  clear Hlen. induction arrays as [|a arrays IH]; [contradiction |].
  cbn [map fold_right]. destruct Hin as [-> | Hin]; [reflexivity |].
  rewrite (IH Hin). lia.
Qed.

End Product.

Lemma product_membership_witness :
  let arrays := [[Num 1; Num 2]; [Num 3]] in
  (forall arr x, In arr arrays -> In x arr -> Array_elements x = None) /\
  (In [Num 2; Num 3] (product Array_elements arrays) <->
   Forall2 (fun x arr => In x arr) [Num 2; Num 3] arrays).
Proof.
  cbv zeta.
  assert (H : forall arr x, In arr [[Num 1; Num 2]; [Num 3]] -> In x arr ->
                            Array_elements x = None).
  { intros arr x [<- | [<- | []]] Hx; simpl in Hx;
      repeat (destruct Hx as [<- | Hx]; [reflexivity |]); destruct Hx. }
  split; [exact H |].
  exact (proj2 (product_membership Array_elements
                  [[Num 1; Num 2]; [Num 3]] [Num 2; Num 3]) H).
Defined.

(** An element that is an array is spread by [concat]: the lists of the
    result then hold its elements, not the array. *)
Example product_spreads :
  product Array_elements [[Arr [Num 1; Num 2]]] = [[Num 1; Num 2]] /\
  product Array_elements [[Num 1; Num 2]; [Num 3]] =
    [[Num 1; Num 3]; [Num 2; Num 3]] /\
  product Array_elements [[Num 1]; [Arr []; Num 2]] =
    [[Num 1]; [Num 1; Num 2]].
Proof. repeat split. Qed.

(** ** [lexicographicalCompare] *)

(** X14. [lexicographicalCompare] returns zero exactly when the two
    sequences have the same length and [localeCompare] finds no difference
    between the elements at any position. *)
Theorem lexicographicalCompare_zero
  (localeCompare : jsstring -> jsstring -> Z) (a b : list jsstring) :
  lexicographicalCompare localeCompare a b = 0 <->
  Forall2 (fun x y => localeCompare x y = 0) a b.
Proof.
  revert b. induction a as [|x a IH]; intros [|y b];
    cbn [lexicographicalCompare].
  - split; [constructor | reflexivity].
  - split; [discriminate | intros H; inversion H].
  - split; [discriminate | intros H; inversion H].
  - destruct (Z.eqb_spec (localeCompare x y) 0) as [Heq | Hneq]; cbn [negb].
    + rewrite IH. split; [intros H; constructor; assumption |].
      intros H. inversion H. assumption.
    + split; [intros H; congruence | intros H; inversion H; congruence].
Qed.

(** X15. When [localeCompare] changes sign with the order of its
    arguments, so does [lexicographicalCompare]. *)
Theorem lexicographicalCompare_antisymmetric
  (localeCompare : jsstring -> jsstring -> Z) :
  (forall x y, localeCompare y x = - localeCompare x y) ->
  forall a b,
    lexicographicalCompare localeCompare b a =
    - lexicographicalCompare localeCompare a b.
Proof.
  intros Hanti. induction a as [|x a IH]; intros [|y b];
    cbn [lexicographicalCompare]; try reflexivity.
  rewrite (Hanti x y).
  destruct (Z.eqb_spec (localeCompare x y) 0) as [Heq | Hneq].
  - rewrite Heq. cbn. apply IH.
  - destruct (Z.eqb_spec (- localeCompare x y) 0) as [H0 | _]; [lia |].
    reflexivity.
Qed.

Lemma lexicographicalCompare_antisymmetric_witness :
  let by_length (x y : jsstring) :=
    Z.of_nat (length x) - Z.of_nat (length y) in
  (forall x y, by_length y x = - by_length x y) /\
  lexicographicalCompare by_length [lit "de"] [lit "ab"; lit "c"] =
  - lexicographicalCompare by_length [lit "ab"; lit "c"] [lit "de"].
Proof.
  intros by_length.
  assert (H : forall x y, by_length y x = - by_length x y)
    by (intros x y; unfold by_length; lia).
  split; [exact H |].
  apply (lexicographicalCompare_antisymmetric by_length H).
Defined.

(** ** [memoize] *)

(** X16. Once a call of a memoized function has returned a truthy value,
    every later call returns that value and [fn] is not run again: the
    world stays as that call left it. *)
Theorem memoized_caches {W T : Type} (truthy : T -> bool) (fn : W -> T * W)
  (st st' : option T * W) (r : T) :
  memoized truthy fn st = (r, st') -> truthy r = true ->
  forall n, calls truthy fn n st' = (repeat r n, st').
Proof.
  intros Hcall Htruthy.
  assert (Hst' : memoized truthy fn st' = (r, st')).
  { unfold memoized in *. destruct st as [[r0 |] w].
    - destruct (truthy r0) eqn:H0.
      + injection Hcall as <- <-. cbn. rewrite H0. reflexivity.
      + destruct (fn w) as [r' w']. injection Hcall as <- <-.
        rewrite Htruthy. reflexivity.
    - destruct (fn w) as [r' w']. injection Hcall as <- <-.
      rewrite Htruthy. reflexivity. }
  induction n as [|n IH]; [reflexivity |].
  cbn [calls repeat]. rewrite Hst', IH. reflexivity.
Qed.

Lemma memoized_caches_witness :
  let fn (w : nat) := (lit "Linux", S w) in
  let truthy (s : jsstring) := negb (str_eqb s []) in
  memoized truthy fn (None, 0%nat) =
    (lit "Linux", (Some (lit "Linux"), 1%nat)) /\
  truthy (lit "Linux") = true /\
  calls truthy fn 3 (Some (lit "Linux"), 1%nat) =
  (repeat (lit "Linux") 3, (Some (lit "Linux"), 1%nat)).
Proof.
  intros fn truthy. split; [reflexivity |]. split; [reflexivity |].
  apply (memoized_caches truthy fn (None, 0%nat) _ (lit "Linux"));
    reflexivity.
Defined.

(** X17. A falsy result is not kept: when [fn] only returns falsy values,
    every call of the memoized function runs [fn] again. *)
Theorem memoized_falsy {W T : Type} (truthy : T -> bool) (fn : W -> T * W) :
  (forall w, truthy (fst (fn w)) = false) ->
  forall n w,
    snd (snd (calls truthy fn n (None, w))) =
    Nat.iter n (fun w => snd (fn w)) w /\
    length (fst (calls truthy fn n (None, w))) = n.
Proof.
  intros Hfalsy.
  assert (Hgen : forall n res w,
            match res with Some r => truthy r = false | None => True end ->
            snd (snd (calls truthy fn n (res, w))) =
              Nat.iter n (fun w => snd (fn w)) w /\
            length (fst (calls truthy fn n (res, w))) = n).
  { induction n as [|n IH]; intros res w Hres; [split; reflexivity |].
    cbn [calls].
    assert (Hcall : memoized truthy fn (res, w) =
                    (fst (fn w), (Some (fst (fn w)), snd (fn w)))).
    { unfold memoized. destruct res as [r |].
      - rewrite Hres. destruct (fn w); reflexivity.
      - destruct (fn w); reflexivity. }
    rewrite Hcall.
    specialize (IH (Some (fst (fn w))) (snd (fn w)) (Hfalsy w)).
    destruct (calls truthy fn n (Some (fst (fn w)), snd (fn w)))
      as [rs st''].
    cbn [fst snd length] in *. destruct IH as [IH1 IH2].
    rewrite IH1, IH2. split; [| reflexivity].
    symmetry. apply Nat.iter_succ_r. }
  intros n w. apply Hgen. exact I.
Qed.

Lemma memoized_falsy_witness :
  let fn (w : nat) := (@nil ascii, S w) in
  let truthy (s : jsstring) := negb (str_eqb s []) in
  (forall w, truthy (fst (fn w)) = false) /\
  snd (snd (calls truthy fn 4 (None, 0%nat))) = 4%nat.
Proof.
  intros fn truthy.
  assert (H : forall w, truthy (fst (fn w)) = false) by reflexivity.
  split; [exact H |].
  apply (proj1 (memoized_falsy truthy fn H 4 0%nat)).
Defined.

(** ** More on versions *)

Section VersionExtras.

Lemma version_at_not_digit (c : ascii) (t : jsstring) :
  is_digit c = false -> version_at (c :: t) = None.
Proof.
  intros Hc. unfold version_at. cbn [take_while]. rewrite Hc. reflexivity.
Qed.

Lemma find_version_prefix (prefix s : jsstring) :
  forallb (fun c => negb (is_digit c)) prefix = true ->
  find_version (prefix ++ s) = find_version s.
Proof.
  induction prefix as [|c t IH]; intros Hp; [reflexivity |].
  cbn [forallb] in Hp. apply andb_true_iff in Hp as [Hc Ht].
  apply negb_true_iff in Hc.
  cbn [app find_version]. rewrite (version_at_not_digit c _ Hc).
  apply IH, Ht.
Qed.

End VersionExtras.

(** X18. Text without digits in front of the input changes nothing to the
    version [parseVersion] returns. *)
Theorem parseVersion_prefix (prefix s : jsstring) (v : Version) :
  forallb (fun c => negb (is_digit c)) prefix = true ->
  (parseVersion (prefix ++ s) = Normal v <-> parseVersion s = Normal v).
Proof.
  intros Hp. rewrite !parseVersion_find, (find_version_prefix _ _ Hp).
  destruct (find_version s) as [[[[a b] c] r] |]; [tauto |].
  split; discriminate.
Qed.

Lemma parseVersion_prefix_witness :
  forallb (fun c => negb (is_digit c)) (lit "cmake version ") = true /\
  (parseVersion (lit "cmake version " ++ lit "3.20.1") =
     Normal {| major := 3; minor := 20; patch := 1 |} <->
   parseVersion (lit "3.20.1") =
     Normal {| major := 3; minor := 20; patch := 1 |}).
Proof.
  split; [reflexivity |].
  apply (parseVersion_prefix (lit "cmake version ") (lit "3.20.1")).
  reflexivity.
Defined.


(** X20. The wrappers complement one another: [versionLessOrEquals] is the
    negation of [versionGreater] and [versionGreaterOrEquals] the negation
    of [versionLess], on every pair of arguments, failures included. *)
Theorem version_predicates_complement (a b : VersionOrString) :
  versionLessOrEquals a b =
    (g <- versionGreater a b ;; Normal (negb g)) /\
  versionGreaterOrEquals a b =
    (l <- versionLess a b ;; Normal (negb l)) /\
  versionEquals a b =
    (g <- versionGreater a b ;; l <- versionLess a b ;;
     Normal (negb g && negb l)).
Proof.
  unfold versionLessOrEquals, versionGreaterOrEquals, versionGreater,
    versionLess, versionEquals.
  destruct (compareVersions a b) as [[] | e |]; repeat split.
Qed.

(** X21. When both arguments are versions or strings that parse,
    [versionLess(a, b)] is [versionGreater(b, a)]. *)
Theorem versionLess_swap (a b : VersionOrString) (va vb : Version) :
  toVersion a = Normal va -> toVersion b = Normal vb ->
  versionLess a b = versionGreater b a /\
  versionLessOrEquals a b = versionGreaterOrEquals b a.
Proof.
  intros Ha Hb.
  unfold versionLess, versionGreater, versionLessOrEquals,
    versionGreaterOrEquals, compareVersions.
  rewrite Ha, Hb. cbn [bind].
  split; order_cases; (reflexivity || lia).
Qed.

Lemma versionLess_swap_witness :
  toVersion (OfString (lit "3.9.0")) =
    Normal {| major := 3; minor := 9; patch := 0 |} /\
  toVersion (OfVersion {| major := 3; minor := 10; patch := 0 |}) =
    Normal {| major := 3; minor := 10; patch := 0 |} /\
  versionLess (OfString (lit "3.9.0"))
    (OfVersion {| major := 3; minor := 10; patch := 0 |}) =
  versionGreater (OfVersion {| major := 3; minor := 10; patch := 0 |})
    (OfString (lit "3.9.0")).
Proof.
  split; [reflexivity |]. split; [reflexivity |].
  apply (versionLess_swap (OfString (lit "3.9.0"))
           (OfVersion {| major := 3; minor := 10; patch := 0 |})
           {| major := 3; minor := 9; patch := 0 |}
           {| major := 3; minor := 10; patch := 0 |});
    reflexivity.
Defined.

(** X22. The first argument is parsed first: when neither string holds a
    version, the error of a comparison names its first argument, so
    exchanging the arguments changes the error. *)
Theorem compareVersions_error_order (sa sb : jsstring) :
  ~ has_version sa -> ~ has_version sb ->
  compareVersions (OfString sa) (OfString sb) =
    Throw (InvalidVersionString (invalid_message sa)) /\
  compareVersions (OfString sb) (OfString sa) =
    Throw (InvalidVersionString (invalid_message sb)).
Proof.
  intros Ha Hb. apply find_version_none in Ha, Hb.
  unfold compareVersions. cbn [toVersion].
  rewrite !parseVersion_find, Ha, Hb. split; reflexivity.
Qed.

Lemma compareVersions_error_order_witness :
  ~ has_version (lit "abc") /\ ~ has_version (lit "1.2") /\
  compareVersions (OfString (lit "abc")) (OfString (lit "1.2")) =
    Throw (InvalidVersionString (lit "Invalid version string abc")).
Proof.
  assert (Ha : ~ has_version (lit "abc"))
    by (apply find_version_none; reflexivity).
  assert (Hb : ~ has_version (lit "1.2"))
    by (apply find_version_none; reflexivity).
  split; [exact Ha |]. split; [exact Hb |].
  apply (compareVersions_error_order (lit "abc") (lit "1.2") Ha Hb).
Defined.

(** ** The kit button *)

Section KitButton.

Variable unspecified : jsstring.

Lemma str_eqb_nil (s : jsstring) : str_eqb s [] = true <-> s = [].
Proof.
  unfold str_eqb. destruct (list_eq_dec ascii_dec s []); split;
    congruence.
Qed.

Lemma getTextNormal_not_empty (b : KitSelection) :
  KitSelection_getTextNormal unspecified b <> [].
Proof.
  unfold KitSelection_getTextNormal.
  destruct (str_eqb (kit_text b) unspecified); [discriminate |].
  destruct (kit_text b); cbn; discriminate.
Qed.

Lemma getTextShort_not_empty (b : KitSelection) :
  KitSelection_getTextShort unspecified b <> [].
Proof.
  unfold KitSelection_getTextShort.
  destruct (_ <? _); [| apply getTextNormal_not_empty].
  destruct (substr_to _ _); discriminate.
Qed.

Lemma getText_not_empty (b : KitSelection) :
  KitSelection_getText unspecified b <> [].
Proof.
  unfold KitSelection_getText.
  destruct (kit_type b);
    (apply getTextNormal_not_empty || apply getTextShort_not_empty).
Qed.

(** X23. The kit button always has a text to show: its normal text and its
    short text are never empty, so the button is shown unless its type is
    [hidden] or it is forced to hide. *)
Theorem KitSelection_shown_iff (b : KitSelection) :
  KitSelection_getTextNormal unspecified b <> [] /\
  KitSelection_getTextShort unspecified b <> [] /\
  (KitSelection_shown unspecified b = true <->
   kit_type b <> HiddenButton /\ kit_forceHidden b = false).
Proof.
  split; [apply getTextNormal_not_empty |].
  split; [apply getTextShort_not_empty |].
  unfold KitSelection_shown, KitSelection_isVisible.
  pose proof (getText_not_empty b) as Hne.
  destruct (str_eqb (KitSelection_getText unspecified b) []) eqn:He;
    [apply str_eqb_nil in He; contradiction |].
  destruct (kit_type b), (kit_forceHidden b); cbn; split;
    try discriminate; try (intros [H1 H2]; congruence);
    intros _; split; (discriminate || reflexivity).
Qed.

(** X24. With a length setting that is not negative, the short text of the
    kit button has at most three characters more than the setting and is
    never longer than the normal text: it is the normal text when that has
    at most [length + 3] characters, and otherwise its first [length]
    characters followed by three dots. *)
Theorem KitSelection_short_bound (b : KitSelection) :
  0 <= kit_length b ->
  Z.of_nat (length (KitSelection_getTextShort unspecified b)) <=
    kit_length b + 3 /\
  (length (KitSelection_getTextShort unspecified b) <=
   length (KitSelection_getTextNormal unspecified b))%nat /\
  (Z.of_nat (length (KitSelection_getTextNormal unspecified b)) <=
     kit_length b + 3 ->
   KitSelection_getTextShort unspecified b =
     KitSelection_getTextNormal unspecified b) /\
  (kit_length b + 3 <
     Z.of_nat (length (KitSelection_getTextNormal unspecified b)) ->
   KitSelection_getTextShort unspecified b =
     firstn (Z.to_nat (kit_length b))
       (KitSelection_getTextNormal unspecified b) ++ lit "..." /\
   Z.of_nat (length (KitSelection_getTextShort unspecified b)) =
     kit_length b + 3).
Proof.
  intros Hlen. unfold KitSelection_getTextShort, substr_to.
  destruct (Z.ltb_spec (kit_length b + 3)
              (Z.of_nat (length (KitSelection_getTextNormal unspecified b))))
    as [Hlt | Hge].
  - assert (Hcut : Z.of_nat
              (length
                 (firstn (Z.to_nat (kit_length b))
                    (KitSelection_getTextNormal unspecified b) ++
                  lit "...")) = kit_length b + 3).
    { rewrite length_app, length_firstn.
      cbn [lit list_ascii_of_string length]. lia. }
    split; [lia |]. split; [lia |]. split; [lia |].
    intros _. split; [reflexivity | exact Hcut].
  - split; [lia |]. split; [lia |]. split; [reflexivity | lia].
Qed.

End KitButton.

Lemma KitSelection_short_bound_witness :
  let b := {| kit_text := lit "GCC 12.2.0 x86_64-linux-gnu";
              kit_forceHidden := false;
              kit_type := ShortButton; kit_length := 7 |} in
  0 <= kit_length b /\
  KitSelection_getTextShort (lit "__unspec__") b = lit "GCC 12...." /\
  Z.of_nat (length (KitSelection_getTextShort (lit "__unspec__") b)) <=
    kit_length b + 3.
Proof.
  intros b. assert (H : 0 <= kit_length b) by (simpl; lia).
  split; [exact H |]. split; [reflexivity |].
  apply (proj1 (KitSelection_short_bound (lit "__unspec__") b H)).
Defined.

(** A text of at most [length + 3] characters is kept whole, and a negative
    setting is outside the bound: three dots are more than [length + 3]. *)
Example KitSelection_short_examples :
  KitSelection_getTextShort (lit "__unspec__")
    {| kit_text := lit "abcdefg"; kit_forceHidden := false;
       kit_type := ShortButton; kit_length := 5 |} = lit "abcdefg" /\
  KitSelection_getTextShort (lit "__unspec__")
    {| kit_text := lit "abcdefghi"; kit_forceHidden := false;
       kit_type := ShortButton; kit_length := 5 |} = lit "abcde..." /\
  KitSelection_getTextShort (lit "__unspec__")
    {| kit_text := lit "ab"; kit_forceHidden := false;
       kit_type := ShortButton; kit_length := -3 |} = lit "...".
Proof. repeat split. Qed.

(** ** [normalizePath] *)

Section FindFirst.

Lemma find_first_Some (search : jsstring) :
  forall s before after,
    find_first search s = Some (before, after) ->
    s = before ++ search ++ after.
Proof.
  induction s as [|c t IH]; intros before after H; cbn [find_first] in H.
  - destruct (strip_prefix search []) as [a |] eqn:Hp; [| discriminate].
    injection H as <- <-. apply strip_prefix_Some in Hp. exact Hp.
  - destruct (strip_prefix search (c :: t)) as [a |] eqn:Hp.
    + injection H as <- <-. apply strip_prefix_Some in Hp. exact Hp.
    + destruct (find_first search t) as [[b a] |] eqn:Hf; [| discriminate].
      injection H as <- <-. rewrite (IH _ _ eq_refl). reflexivity.
Qed.

Lemma find_first_None (search : jsstring) :
  forall s, find_first search s = None -> ~ contains s search.
Proof.
  induction s as [|c t IH]; intros H (pre & post & Heq);
    cbn [find_first] in H.
  - destruct (strip_prefix search []) eqn:Hp; [discriminate |].
    destruct pre; [| discriminate].
    apply (strip_prefix_None _ _ Hp post). exact Heq.
  - destruct (strip_prefix search (c :: t)) eqn:Hp; [discriminate |].
    destruct (find_first search t) as [[b a] |] eqn:Hf; [discriminate |].
    destruct pre as [|x pre].
    + apply (strip_prefix_None _ _ Hp post). exact Heq.
    + injection Heq as _ Heq. apply (IH eq_refl). exists pre, post.
      exact Heq.
Qed.

Lemma includes_contains (s search : jsstring) :
  includes s search = true <-> contains s search.
Proof.
  unfold includes. destruct (find_first search s) as [[b a] |] eqn:Hf.
  - split; [| reflexivity]. intros _. exists b, a.
    apply find_first_Some, Hf.
  - split; [discriminate |]. intros H.
    exfalso. apply (find_first_None _ _ Hf H).
Qed.

End FindFirst.

Section SeparatorLoop.

Variable sep : ascii.
Hypothesis sep_not_slash : sep <> "/"%char.

Let convert (c : ascii) : ascii := if Ascii.eqb sep c then "/"%char else c.

Lemma find_first_char (s : jsstring) :
  find_first [sep] s =
  match s with
  | [] => None
  | c :: t =>
      if Ascii.eqb sep c then Some ([], t)
      else match find_first [sep] t with
           | Some (before, after) => Some (c :: before, after)
           | None => None
           end
  end.
Proof.
  destruct s as [|c t]; [reflexivity |].
  cbn [find_first strip_prefix]. destruct (Ascii.eqb sep c); reflexivity.
Qed.

(** One replacement turns the first separator into a slash. *)
Lemma replace_first_separator (s : jsstring) :
  includes s [sep] = true ->
  map convert (String_replace s [sep] (lit "/")) = map convert s /\
  count_occ ascii_dec (String_replace s [sep] (lit "/")) sep =
  pred (count_occ ascii_dec s sep) /\
  (0 < count_occ ascii_dec s sep)%nat.
Proof.
  unfold includes, String_replace.
  assert (Hslash : convert "/" = "/"%char).
  { unfold convert. destruct (Ascii.eqb_spec sep "/"); [contradiction |].
    reflexivity. }
  induction s as [|c t IH]; rewrite find_first_char; [discriminate |].
  destruct (Ascii.eqb_spec sep c) as [<- | Hc].
  - intros _. cbn [app lit list_ascii_of_string GetSubstitution].
    assert (Hd : negb (Ascii.eqb "/" "$") = true) by reflexivity.
    rewrite Hd. cbn [app map count_occ]. rewrite Hslash.
    unfold convert at 2. rewrite Ascii.eqb_refl.
    destruct (ascii_dec sep sep) as [_ | Hn]; [| congruence].
    destruct (ascii_dec "/" sep) as [He | _]; [congruence |].
    repeat split; lia.
  - destruct (find_first [sep] t) as [[before after] |] eqn:Hf;
      [| discriminate].
    intros _. specialize (IH eq_refl) as (IH1 & IH2 & IH3).
    cbn [app map count_occ].
    assert (Hsub : forall b,
              GetSubstitution [Some [sep]] [sep] b after (lit "/") =
              lit "/") by reflexivity.
    rewrite Hsub in *. rewrite IH1.
    destruct (ascii_dec c sep) as [He | _]; [congruence |].
    repeat split; [exact IH2 | exact IH3].
Qed.

Lemma no_separator (s : jsstring) :
  includes s [sep] = false ->
  map convert s = s /\ count_occ ascii_dec s sep = 0%nat.
Proof.
  unfold includes. induction s as [|c t IH]; rewrite find_first_char;
    [split; reflexivity |].
  destruct (Ascii.eqb_spec sep c) as [<- | Hc]; [discriminate |].
  destruct (find_first [sep] t) as [[before after] |]; [discriminate |].
  intros _. destruct (IH eq_refl) as [IH1 IH2].
  cbn [map count_occ]. rewrite IH1. unfold convert.
  destruct (Ascii.eqb_spec sep c); [congruence |].
  destruct (ascii_dec c sep); [congruence |]. split; [reflexivity | exact IH2].
Qed.

Lemma separator_test : negb (str_eqb [sep] (lit "/")) = true.
Proof.
  unfold str_eqb. destruct (list_eq_dec ascii_dec [sep] (lit "/")) as [H |];
    [| reflexivity].
  injection H as H. contradiction.
Qed.

(** The loop ends when no separator is left, within as many rounds as the
    string has separators; every separator has then become a slash. *)
Lemma separator_loop_spec (fuel : nat) :
  forall s, (count_occ ascii_dec s sep <= fuel)%nat ->
  separator_loop fuel sep s = map convert s.
Proof.
  induction fuel as [|fuel IH]; intros s Hcount.
  - cbn [separator_loop]. destruct (includes s [sep]) eqn:Hi.
    + destruct (replace_first_separator s Hi) as (_ & _ & Hpos). lia.
    + symmetry. apply no_separator, Hi.
  - cbn [separator_loop]. rewrite separator_test. cbn [andb].
    destruct (includes s [sep]) eqn:Hi.
    + destruct (replace_first_separator s Hi) as (Hmap & Hpred & Hpos).
      rewrite IH by lia. exact Hmap.
    + symmetry. apply no_separator, Hi.
Qed.

Lemma separator_loop_done (s : jsstring) :
  separator_loop (length s) sep s = map convert s /\
  ~ In sep (separator_loop (length s) sep s).
Proof.
  assert (Hspec : separator_loop (length s) sep s = map convert s).
  { apply separator_loop_spec. apply count_occ_bound. }
  split; [exact Hspec |]. rewrite Hspec. intros Hin.
  apply in_map_iff in Hin as (c & Hc & _). unfold convert in Hc.
  destruct (Ascii.eqb_spec sep c); congruence.
Qed.

End SeparatorLoop.

Section SlashLoop.

Lemma subsequence_In (r s : jsstring) (c : ascii) :
  subsequence r s -> In c r -> In c s.
Proof.
  induction 1 as [| x r s _ IH | x r s _ IH]; intros Hin.
  - exact Hin.
  - destruct Hin as [-> | Hin]; [left; reflexivity | right; apply IH, Hin].
  - right. apply IH, Hin.
Qed.

(** With the empty replacement text a global replace only leaves
    characters out. *)
Lemma replace_loop_nothing (size : nat) (ts : list Term) (fuel : nat) :
  forall before s,
    subsequence (replace_loop fuel size ts [] before s) s.
Proof.
  induction fuel as [|fuel IH]; intros before s; [apply subsequence_refl |].
  rewrite replace_loop_S.
  destruct (search size ts s) as [[skipped arr] |] eqn:Hs;
    [| apply subsequence_refl].
  destruct (search_skipped _ _ _ _ _ Hs) as (Hfirst & _ & _).
  assert (Hsplit : s = skipped ++ skipn (length skipped) s)
    by (rewrite <- Hfirst at 1; symmetry; apply firstn_skipn).
  cbv zeta. cbn [GetSubstitution app].
  remember (skipn (length skipped) s) as tail eqn:Htail.
  rewrite Hsplit. clear Hsplit Htail Hs Hfirst.
  assert (Hkeep : forall r, subsequence r tail ->
                            subsequence (skipped ++ r) (skipped ++ tail)).
  { intros r Hr. induction skipped as [|x l IHl]; [exact Hr |].
    cbn [app]. apply subsequence_keep, IHl. }
  apply Hkeep.
  destruct (nullish (at_index arr 0) []) as [|m0 m].
  - cbn [length skipn]. destruct tail as [|c t]; [constructor |].
    apply subsequence_keep, IH.
  - rewrite <- (firstn_skipn (length (m0 :: m)) tail) at 2.
    apply subsequence_skip, IH.
Qed.

Let collapse (s : jsstring) : jsstring :=
  replace_global (map literal (lit "//")) (lit "/") s.

Lemma collapse_shrinks (n : nat) :
  forall s, (length s < n)%nat ->
  (length (collapse s) <= length s)%nat /\
  (contains s (lit "//") -> (length (collapse s) < length s)%nat) /\
  (forall c, In c (collapse s) -> In c s).
Proof.
  pose proof (plain_substitution (lit "//") (lit "/") eq_refl) as Hw.
  induction n as [|n IH]; intros s Hn; [lia |].
  destruct (strip_prefix (lit "//") s) as [after |] eqn:Hp.
  - apply strip_prefix_Some in Hp. subst s. unfold collapse.
    rewrite (literal_front _ _ _ Hw "/"%char ["/"%char] after eq_refl).
    fold (collapse after).
    cbn [lit list_ascii_of_string app length] in *.
    destruct (IH after ltac:(lia)) as (Hle & _ & Hin).
    repeat split; try lia.
    intros c [<- | Hc]; [left; reflexivity | right; right; apply Hin, Hc].
  - destruct s as [|c t].
    + unfold collapse. rewrite (literal_nil _ _ _ Hw) by discriminate.
      repeat split; [lia | | intros c []].
      intros (pre & post & Heq). destruct pre; discriminate.
    + unfold collapse. rewrite (literal_skip _ _ _ Hw c t Hp).
      fold (collapse t). simpl in Hn.
      destruct (IH t ltac:(lia)) as (Hle & Hlt & Hin).
      cbn [length]. repeat split; [lia | |].
      * intros (pre & post & Heq). destruct pre as [|x pre].
        -- exfalso. apply (strip_prefix_None _ _ Hp post). exact Heq.
        -- injection Heq as _ Heq.
           assert (contains t (lit "//")) by (exists pre, post; exact Heq).
           specialize (Hlt H). lia.
      * intros x [<- | Hx]; [left; reflexivity | right; apply Hin, Hx].
Qed.

(** The loop ends within as many rounds as the string has characters, and
    no double slash is left. *)
Lemma slash_loop_spec (fuel : nat) :
  forall s, (length s <= fuel)%nat ->
  exists r, slash_loop fuel s = Some r /\ ~ contains r (lit "//") /\
            (forall c, In c r -> In c s).
Proof.
  induction fuel as [|fuel IH]; intros s Hlen.
  - destruct s; [| simpl in Hlen; lia]. exists []. repeat split; [| auto].
    intros (pre & post & Heq). destruct pre; discriminate.
  - cbn [slash_loop]. destruct (includes s (lit "//")) eqn:Hi.
    + rewrite replaceAll_unfold. fold (collapse s).
      apply includes_contains in Hi.
      destruct (collapse_shrinks (S (length s)) s ltac:(lia))
        as (_ & Hlt & Hin).
      specialize (Hlt Hi).
      destruct (IH (collapse s) ltac:(lia)) as (r & Hr & Hclean & Hchars).
      exists r. repeat split; [exact Hr | exact Hclean |].
      intros c Hc. apply Hin, Hchars, Hc.
    + exists s. repeat split; [| auto].
      intros Hc. apply includes_contains in Hc. congruence.
Qed.

End SlashLoop.

(** X25. [normalizePath] always returns, whatever the host functions and
    the options, and the path it returns holds no double slash. *)
Theorem normalizePath_clean (h : Host) (p : jsstring)
  (opt : option PathNormalizationOptions) :
  exists r, normalizePath h p opt = Some r /\ ~ contains r (lit "//").
Proof.
  unfold normalizePath. cbv zeta.
  match goal with
  | |- context [slash_loop (length ?n) ?n] =>
      destruct (slash_loop_spec (length n) n (Nat.le_refl _))
        as (r & Hr & Hclean & _)
  end.
  exists r. split; [exact Hr | exact Hclean].
Qed.

(** X26. On a host whose separator is not the slash,
    [lightNormalizePath] returns a path in which the separator does not
    occur: every one in what [path.normalize] returned has become a
    slash. *)
Theorem lightNormalizePath_separator (h : Host) (p r : jsstring) :
  path_sep h <> "/"%char ->
  lightNormalizePath h p = Some r ->
  ~ In (path_sep h) r.
Proof.
  intros Hsep. unfold lightNormalizePath, normalizePath. cbv zeta.
  cbn [normCase normUnicode].
  set (n1 := path_normalize h p).
  set (n2 := separator_loop (length n1) (path_sep h) n1).
  set (n3 := replace_global trailing_slash_re [] n2).
  intros Hr Hin.
  destruct (slash_loop_spec (length n3) n3 (Nat.le_refl _))
    as (r' & Hr' & _ & Hchars).
  rewrite Hr in Hr'. injection Hr' as <-.
  apply Hchars in Hin.
  apply (subsequence_In _ n2) in Hin;
    [| apply replace_loop_nothing].
  destruct (separator_loop_done (path_sep h) Hsep n1) as [_ Hnone].
  apply Hnone, Hin.
Qed.

Lemma lightNormalizePath_separator_witness :
  let h := {| path_normalize := fun p => p; path_sep := "\"%char;
              platform := win32; toLocaleLowerCase := fun p => p;
              String_normalize := fun p => p |} in
  path_sep h <> "/"%char /\
  lightNormalizePath h (lit "C:\src\\lib\") = Some (lit "C:/src/lib") /\
  ~ In (path_sep h) (lit "C:/src/lib").
Proof.
  intros h. assert (Hsep : path_sep h <> "/"%char) by discriminate.
  assert (Hr : lightNormalizePath h (lit "C:\src\\lib\") =
               Some (lit "C:/src/lib")) by reflexivity.
  split; [exact Hsep |]. split; [exact Hr |].
  apply (lightNormalizePath_separator h (lit "C:\src\\lib\") _ Hsep Hr).
Defined.
